(** * Multi-state annuities: generator, transition matrix and annuity valuation

    A shallow embedding of the notebook functions [U], [P] and [annuities].

    Numbers.  The notebook computes with NumPy double-precision arrays.  Here a
    Python/NumPy float is idealised as a real number ([R]), so that [+], [*]
    and [**] are the exact field operations; rounding, overflow and NaN are
    outside the model.  The one exception is the module [Double], which
    computes [U] in IEEE binary64 to settle the tolerance of its row sums.

    Shapes.  The array operations are modelled on arrays of one shape, which
    is what the transition matrices are; NumPy's broadcasting and its
    [ValueError] on incompatible shapes are outside the model.

    Arrays.  A two-dimensional array is a list of rows.  NumPy's [*] on two
    arrays is the entry-by-entry product, [c * a] scales every entry and [+]
    adds entry by entry.

    Effects.  [annuities] receives the transition-matrix function as a
    callback and may fail on an index that is out of range.  Both are kept:
    a computation threads the list of ages at which the callback was
    evaluated and ends either with a value or with a raised exception. *)

From Stdlib Require Import Floats Uint63.
From Stdlib Require Import Reals Lra Lia ZArith List Bool.
Import ListNotations.
Set Warnings "-inexact-float".

Open Scope R_scope.

(** ** Arrays *)

Definition vector := list R.
Definition matrix := list vector.

Module Mat.

(** One row of [np.eye(d)]: a one in column [i], zeros elsewhere. *)
Definition unit_row (d i : nat) : vector :=
  map (fun j => if Nat.eqb i j then 1 else 0) (seq 0 d).

(** [np.eye(d)]. *)
Definition eye (d : nat) : matrix :=
  map (unit_row d) (seq 0 d).

(** Entry-by-entry combination of two arrays of the same shape. *)
Fixpoint zip_with {A B C : Type} (f : A -> B -> C) (l : list A) (l' : list B) : list C :=
  match l, l' with
  | a :: l, b :: l' => f a b :: zip_with f l l'
  | _, _ => []
  end.

(** [a + b] on arrays of one shape (NumPy broadcasts or raises
    [ValueError] on other shapes; not modelled). *)
Definition add (a b : matrix) : matrix := zip_with (zip_with Rplus) a b.

(** [a * b] on arrays of one shape: the entry-by-entry product (NumPy
    broadcasts or raises [ValueError] on other shapes; not modelled). *)
Definition mul (a b : matrix) : matrix := zip_with (zip_with Rmult) a b.

(** [c * a] for a number [c] and an array [a]. *)
Definition scal (c : R) (a : matrix) : matrix := map (map (Rmult c)) a.

(** [a[i][j]]; zero outside the array. *)
Definition entry (a : matrix) (i j : nat) : R := nth j (nth i a []) 0.

(** [np.sum(a, axis = 1)[i]], the sum of a row taken from the left. *)
Definition sum (r : vector) : R := fold_left Rplus r 0.

(** [a.shape == (d, d)]. *)
Definition square (d : nat) (a : matrix) : Prop :=
  length a = d /\ Forall (fun r => length r = d) a.

(** The row-by-column product of linear algebra (NumPy's [a @ b]),
    which the notebook never calls. *)
Definition dot (r : vector) (c : vector) : R :=
  fold_right Rplus 0 (zip_with Rmult r c).

Definition col (j : nat) (b : matrix) : vector := map (fun r => nth j r 0) b.

Definition matmul (a b : matrix) : matrix :=
  map (fun r => map (fun j => dot r (col j b)) (seq 0 (length (nth 0 b [])))) a.


End Mat.

(** ** Computations with a callback log and exceptions *)

(** [IndexError] is the only exception the notebook code can raise in this
    model.  [InvalidHorizon] and [CashflowLengthMismatch] are the names the
    design document gives to contract violations; no source line raises them. *)
Inductive exn : Set :=
| IndexError
| InvalidHorizon
| CashflowLengthMismatch.

Inductive result (A : Type) : Type :=
| Ok (a : A)
| Raise (e : exn).
Arguments Ok {A} a.
Arguments Raise {A} e.

(** The ages at which the callback has been evaluated, oldest first. *)
Definition log := list R.

Definition comp (A : Type) : Type := log -> log * result A.

Definition ret {A : Type} (a : A) : comp A := fun t => (t, Ok a).

Definition raise {A : Type} (e : exn) : comp A := fun t => (t, Raise e).

Definition bind {A B : Type} (m : comp A) (f : A -> comp B) : comp B :=
  fun t =>
    match m t with
    | (t', Ok a) => f a t'
    | (t', Raise e) => (t', Raise e)
    end.

Declare Scope comp_scope.
Delimit Scope comp_scope with comp.
Notation "x <- m ;; f" := (bind m (fun x => f))
  (at level 61, m at next level, right associativity) : comp_scope.
Notation "' p <- m ;; f" := (bind m (fun p => f))
  (at level 61, p pattern, m at next level, right associativity) : comp_scope.
Open Scope comp_scope.

(** Run a computation from an empty log. *)
Definition run {A : Type} (m : comp A) : log * result A := m [].

(** Evaluate the callback [P] at [age], recording the call. *)
Definition call (P : R -> matrix) (age : R) : comp matrix :=
  fun t => (t ++ [age], Ok (P age)).

(** [v[k]] on a one-dimensional array: a negative index counts from the
    end, an index outside [-len, len) raises [IndexError]. *)
Definition getitem (v : vector) (k : Z) : comp R :=
  let len := Z.of_nat (length v) in
  let i := if (k <? 0)%Z then (len + k)%Z else k in
  if ((0 <=? i)%Z && (i <? len)%Z)%bool
  then match nth_error v (Z.to_nat i) with
       | Some w => ret w
       | None => raise IndexError
       end
  else raise IndexError.

(** [range(lo, hi)]. *)
Definition range (lo hi : Z) : list Z :=
  map (fun i => (lo + Z.of_nat i)%Z) (seq 0 (Z.to_nat (hi - lo))).

(** [for k in ks : s = body(k, s)]. *)
Fixpoint for_each {S : Type} (ks : list Z) (body : Z -> S -> comp S) (s : S) : comp S :=
  match ks with
  | [] => ret s
  | k :: ks => s' <- body k s ;; for_each ks body s'
  end.

(** ** The notebook functions *)

(** The discount argument [v] of [annuities]: the code asks
    [isinstance(v, np.ndarray)] and otherwise treats [v] as a number. *)
Inductive discount : Type :=
| Scalar (v : R)
| Ndarray (v : vector).

(** [def U(x)]: the force-of-transition matrix at age [x]. *)
Definition U (x : R) : matrix :=
  let A := 0.001 in
  let B := 0.0004 in
  let c := 1.07 in
  let u01 := 0.001 * x in
  let u02 := 0.01 in
  let u03 := A + B * Rpower c x in
  let u00 := - (u01 + u02 + u03) in
  [ [ u00; u01; u02; u03 ];
    [ 0; - u03; 0; u03 ];
    [ 0; 0; - u03; u03 ];
    [ 0; 0; 0; 0 ] ].

(** The loop body of the array branch:
    [Pk = P(x + k) * Pk ; a = a + v[k] * Pk]. *)
Definition step_ndarray (x : R) (v : vector) (P : R -> matrix)
    (k : Z) (s : matrix * matrix) : comp (matrix * matrix) :=
  let '(Pk, a) := s in
  Pxk <- call P (x + IZR k) ;;
  let Pk := Mat.mul Pxk Pk in
  vk <- getitem v k ;;
  ret (Pk, Mat.add a (Mat.scal vk Pk)).

(** The loop body of the number branch:
    [Pk = P(x + k) * Pk ; a = a + (v**k) * Pk]. *)
Definition step_scalar (x : R) (v : R) (P : R -> matrix)
    (k : Z) (s : matrix * matrix) : comp (matrix * matrix) :=
  let '(Pk, a) := s in
  Pxk <- call P (x + IZR k) ;;
  let Pk := Mat.mul Pxk Pk in
  ret (Pk, Mat.add a (Mat.scal (powerRZ v k) Pk)).

(** [def annuities(x, v, P, n)]. *)
Definition annuities (x : R) (v : discount) (P : R -> matrix) (n : Z) : comp matrix :=
  Pk <- call P x ;;
  let d := length Pk in
  let a := Mat.eye d in
  match v with
  | Ndarray v =>
      v0 <- getitem v 0 ;;
      let a := Mat.scal v0 a in
      if (1 <? length v)%nat then
        '(_, a) <- for_each (range 1 (n + 1)) (step_ndarray x v P) (Pk, a) ;;
        ret a
      else ret a
  | Scalar v =>
      '(_, a) <- for_each (range 1 (n + 1)) (step_scalar x v P) (Pk, a) ;;
      ret a
  end.

(** [linalg.expm] is SciPy's; the notebook only calls it. *)
Section TransitionMatrix.

Variable expm : matrix -> matrix.

(** [def P(x)]: the transition-probability matrix at age [x]. *)
Definition P (x : R) : matrix := expm (U x).

End TransitionMatrix.

(** ** Notions of the design document *)

(** [weight(k)]: [v**k] for a number, [v[k]] for an array of weights. *)
Definition weight (v : discount) (k : Z) : option R :=
  match v with
  | Scalar v => Some (powerRZ v k)
  | Ndarray v => if (k <? 0)%Z then None else nth_error v (Z.to_nat k)
  end.

(** The running product after [k] updates, for a product [op] of arrays:
    [P(x + k) op ( ... op (P(x + 1) op P(x)))]. *)
Fixpoint chain (op : matrix -> matrix -> matrix) (P : R -> matrix) (x : R) (k : nat) : matrix :=
  match k with
  | O => P x
  | S k' => op (P (x + IZR (Z.of_nat k))) (chain op P x k')
  end.

(** Direct summation: [w 0 * I + w 1 * chain 1 + ... + w n * chain n],
    added from the left. *)
Fixpoint direct_sum (op : matrix -> matrix -> matrix) (w : Z -> R) (P : R -> matrix)
    (x : R) (n : nat) : matrix :=
  match n with
  | O => Mat.scal (w 0%Z) (Mat.eye (length (P x)))
  | S n' => Mat.add (direct_sum op w P x n')
                    (Mat.scal (w (Z.of_nat n)) (chain op P x n))
  end.

(** The [k]-step transition matrix from age [x], as the design document's
    concrete scenario has it: the chronological row-by-column product
    [P(x) @ P(x + 1) @ ... @ P(x + k - 1)] of [k] one-step matrices. *)
Fixpoint k_step (P : R -> matrix) (x : R) (k : nat) : matrix :=
  match k with
  | O => Mat.eye (length (P x))
  | S k' => Mat.matmul (k_step P x k') (P (x + IZR (Z.of_nat k')))
  end.

(** Naive summation of [w k * k_step k] for [k = 0..n]. *)
Fixpoint naive_sum (w : Z -> R) (P : R -> matrix) (x : R) (n : nat) : matrix :=
  match n with
  | O => Mat.scal (w 0%Z) (k_step P x 0)
  | S n' => Mat.add (naive_sum w P x n') (Mat.scal (w (Z.of_nat n)) (k_step P x n))
  end.

(** Modelled from the spec: the power [U^k] of the glossary's series, for a
    [d]-by-[d] array and the row-by-column product. *)
Fixpoint mpow (d : nat) (M : matrix) (k : nat) : matrix :=
  match k with
  | O => Mat.eye d
  | S k' => Mat.matmul M (mpow d M k')
  end.

(** Modelled from the spec: [linalg.expm], which is SciPy's and not part of
    the notebook.  The glossary defines the matrix exponential as the operator
    [exp(U) = sum_k U^k / k!]; [E] is the exponential of [M] when it has the
    shape of [M] and each entry is the sum of that series. *)
Definition is_expm (M E : matrix) : Prop :=
  let d := length M in
  Mat.square d E /\
  forall i j, (i < d)%nat -> (j < d)%nat ->
    infinite_sum (fun k => / INR (fact k) * Mat.entry (mpow d M k) i j)
                 (Mat.entry E i j).

(** The tolerance of the design document's properties. *)
Definition tol : R := 1e-10.

(** The state update of one loop iteration at duration [k], with [w k] the
    weight used there: the pair [(Pk, a)] after the two assignments. *)
Definition update (w : Z -> R) (x : R) (P : R -> matrix)
    (s : matrix * matrix) (k : Z) : matrix * matrix :=
  let Pk := Mat.mul (P (x + IZR k)) (fst s) in
  (Pk, Mat.add (snd s) (Mat.scal (w k) Pk)).

(** The ages [x + k] for the durations [ks]. *)
Definition ages (x : R) (ks : list Z) : list R := map (fun k => x + IZR k) ks.

(** A stochastic matrix that does not depend on the age, used as a sample
    callback: state 0 stays or moves to state 1 with probability one half
    each, the other states are absorbing. *)
Definition half_move (_ : R) : matrix :=
  [ [ 1/2; 1/2; 0; 0 ];
    [ 0; 1; 0; 0 ];
    [ 0; 0; 1; 0 ];
    [ 0; 0; 0; 1 ] ].

(** The sum of the entries of row [i] of [a] off the diagonal. *)
Definition off_diagonal_sum (a : matrix) (i : nat) : R :=
  Mat.sum (map (fun j => if Nat.eqb i j then 0 else Mat.entry a i j)
               (seq 0 (length a))).

(** ** Powers and exponential of the generator, in closed form *)

(** [delta k] is one at [k = 0] and zero afterwards. *)
Definition delta (k : nat) : R :=
  match k with
  | O => 1
  | S _ => 0
  end.

(** [hsum a b k = a^(k-1) + a^(k-2) * b + ... + b^(k-1)]. *)
Fixpoint hsum (a b : R) (k : nat) : R :=
  match k with
  | O => 0
  | S k' => a * hsum a b k' + b ^ k'
  end.

(** The [k]-th power of an array [M] of the pattern of [U x]: first row
    [a, p, q, -(a + p + q)], rows [0, b, 0, -b] and [0, 0, b, -b] with
    [b = a + p + q], last row zero. *)
Definition generator_pow (M : matrix) (k : nat) : matrix :=
  let a := Mat.entry M 0 0 in
  let p := Mat.entry M 0 1 in
  let q := Mat.entry M 0 2 in
  let b := Mat.entry M 1 1 in
  [ [ a ^ k; p * hsum a b k; q * hsum a b k; delta k - b ^ k ];
    [ 0; b ^ k; 0; delta k - b ^ k ];
    [ 0; 0; b ^ k; delta k - b ^ k ];
    [ 0; 0; 0; delta k ] ].

(** The exponential of such an array when [a <> b]. *)
Definition expm_generator (M : matrix) : matrix :=
  let a := Mat.entry M 0 0 in
  let p := Mat.entry M 0 1 in
  let q := Mat.entry M 0 2 in
  let b := Mat.entry M 1 1 in
  let H := (exp a - exp b) / (a - b) in
  [ [ exp a; p * H; q * H; 1 - exp b ];
    [ 0; exp b; 0; 1 - exp b ];
    [ 0; 0; exp b; 1 - exp b ];
    [ 0; 0; 0; 1 ] ].

(** ** The check cells of the notebook *)

(** [a - b] on arrays. *)
Definition array_sub (a b : matrix) : matrix :=
  Mat.zip_with (Mat.zip_with Rminus) a b.

(** [np.zeros((d, d))]. *)
Definition zeros (d : nat) : matrix := repeat (repeat 0 d) d.

(** [np.max] over the numbers of an array, listed row after row; [None]
    stands for the [ValueError] NumPy raises on an empty array. *)
Definition amax (l : list R) : option R :=
  match l with
  | [] => None
  | e :: l' => Some (fold_left Rmax l' e)
  end.

(** The first check cell:
    [np.max([np.sum(P(x), axis = 1) for x in range(0, 101)])]. *)
Definition row_sum_check (expm : matrix -> matrix) : option R :=
  amax (concat (map (fun x => map Mat.sum (P expm (IZR x))) (range 0 101))).

(** [np.array([1 / c**k for k in range(0, m)])]. *)
Definition inverse_powers (c : R) (m : Z) : vector :=
  map (fun k => 1 / powerRZ c k) (range 0 m).

(** The second check cell:
    [v = np.array([1/1.04**k for k in range(0, 21)])] followed by
    [annuities(25, v, P, 20) - annuities(25, 1/1.04, P, 20)]. *)
Definition discount_check (expm : matrix -> matrix) : comp matrix :=
  a1 <- annuities 25 (Ndarray (inverse_powers 1.04 21)) (P expm) 20 ;;
  a2 <- annuities 25 (Scalar (1 / 1.04)) (P expm) 20 ;;
  ret (array_sub a1 a2).

(** ** [U] in double precision *)

Module Double.

Local Open Scope float_scope.

(** A Python [int] age converted to a double, as [0.001 * x] and [c**x]
    convert it. *)
Definition of_age (x : nat) : float :=
  PrimFloat.of_uint63 (Uint63.of_Z (Z.of_nat x)).

(** [def U(x)] in IEEE binary64.  [c**x] is computed by the C library's
    [pow], which is not part of the notebook: its result is supplied by
    [pow]. *)
Definition U (pow : float -> float -> float) (x : float) : list (list float) :=
  let A := 0.001 in
  let B := 0.0004 in
  let c := 1.07 in
  let u01 := 0.001 * x in
  let u02 := 0.01 in
  let u03 := A + B * pow c x in
  let u00 := - (u01 + u02 + u03) in
  [ [ u00; u01; u02; u03 ];
    [ 0; - u03; 0; u03 ];
    [ 0; 0; - u03; u03 ];
    [ 0; 0; 0; 0 ] ].

(** The sum of a row, added from the left starting at zero. *)
Definition sum (r : list float) : float := fold_left PrimFloat.add r 0.

Definition entry (a : list (list float)) (i j : nat) : float :=
  nth j (nth i a []) 0.

Definition off_diagonal_sum (a : list (list float)) (i : nat) : float :=
  sum (map (fun j => if Nat.eqb i j then 0 else entry a i j) (seq 0 (length a))).

(** The tolerance 1e-10. *)
Definition tol : float := 1e-10.

(** The double [1.07] is exactly [c_mantissa * 2^c_exponent], so that the
    exact [x]-th power of that double is [c_mantissa^x * 2^(c_exponent * x)]. *)
Definition c_mantissa : Z := 4818851601286431.
Definition c_exponent : Z := (-52).

(** The number of low bits dropped to keep an integer at 128 bits. *)
Definition narrow (t : Z) : Z := Z.max 0 (Z.log2 t - 127).

(** Bounds [(L, H, s)] with [L * 2^s <= c_mantissa^x <= H * 2^s], carried
    from [x] to [x + 1]: multiply by [c_mantissa] and drop low bits, rounding
    [L] down and [H] up. *)
Definition pow_step (b : Z * Z * Z) : Z * Z * Z :=
  let '(L, H, s) := b in
  let k := narrow (H * c_mantissa) in
  if (k =? 0)%Z
  then (L * c_mantissa, H * c_mantissa, s)%Z
  else (Z.shiftr (L * c_mantissa) k, Z.shiftr (H * c_mantissa) k + 1, s + k)%Z.

Fixpoint pow_bounds (x : nat) : Z * Z * Z :=
  match x with
  | O => (1, 1, 0)%Z
  | S x' => pow_step (pow_bounds x')
  end.

(** The double made of the leading 53 bits of the lower bound. *)
Definition pow_below_of (b : Z * Z * Z) (x : nat) : float :=
  let '(L, _, s) := b in
  let k := (Z.log2 L - 52)%Z in
  if (k <=? 0)%Z
  then SF2Prim (S754_finite false (Z.to_pos L) (s + c_exponent * Z.of_nat x))
  else SF2Prim (S754_finite false (Z.to_pos (Z.shiftr L k))
                            (k + s + c_exponent * Z.of_nat x)).

(** The positive finite double [p = m * 2^e] and its successor enclose the
    bounds: [p <= L * 2^s] and [H * 2^s < p + 2^e], both scaled by
    [2^(c_exponent * x)]. *)
Definition brackets_of (b : Z * Z * Z) (x : nat) (p : float) : bool :=
  let '(L, H, s) := b in
  match Prim2SF p with
  | S754_finite false m e =>
      let g := (e - c_exponent * Z.of_nat x - s)%Z in
      (Z.shiftl (Z.pos m) (Z.max g 0) <=? Z.shiftl L (Z.max (- g) 0))%Z
      && (Z.shiftl H (Z.max (- g) 0) <? Z.shiftl (Z.pos m + 1) (Z.max g 0))%Z
  | _ => false
  end.

(** The doubles a [pow] that errs by less than one unit in the last place
    can return for [1.07**x]: the two around the exact power, and one more
    on each side. *)
Definition pow_candidates_of (b : Z * Z * Z) (x : nat) : list float :=
  let p := pow_below_of b x in
  [ next_down p; p; next_up p; next_up (next_up p) ].

(** The largest double not above the exact [x]-th power of the double
    [1.07] (see [brackets_power]), and the candidates around it. *)
Definition pow_below (x : nat) : float := pow_below_of (pow_bounds x) x.

Definition pow_candidates (x : nat) : list float :=
  pow_candidates_of (pow_bounds x) x.

(** The exact [x]-th power of the double [1.07] lies in [p, p + 2^e), for
    the positive finite double [p = m * 2^e]: both sides are scaled by a
    power of two that makes them integers. *)
Definition brackets_power (x : nat) (p : float) : Prop :=
  match Prim2SF p with
  | S754_finite false m e =>
      let g := (e - c_exponent * Z.of_nat x)%Z in
      (Z.pos m * 2 ^ Z.max g 0
       <= c_mantissa ^ Z.of_nat x * 2 ^ Z.max (- g) 0
       < (Z.pos m + 1) * 2 ^ Z.max g 0)%Z
  | _ => False
  end.

(** Every row sums to zero within [tol]. *)
Definition rows_sum_within_tol (a : list (list float)) : bool :=
  forallb (fun r => abs (sum r) <=? tol) a.

(** Every diagonal entry is the negated sum of the other entries of its row. *)
Definition diagonal_negates_row (a : list (list float)) : bool :=
  forallb (fun i => entry a i i =? - off_diagonal_sum a i) (seq 0 (length a)).

(** The row of the absorbing state is zero. *)
Definition absorbing_row_zero (a : list (list float)) : bool :=
  forallb (fun e => e =? 0) (nth 3 a []).

(** The three properties for [U] at the integer age [x], when [pow]
    returns [p] for [1.07**x]. *)
Definition generator_ok (p : float) (x : nat) : bool :=
  let u := U (fun _ _ => p) (of_age x) in
  rows_sum_within_tol u && diagonal_negates_row u && absorbing_row_zero u.

(** The sum of row 0 of [U] at the integer age [x] under the same
    convention. *)
Definition row_0_sum (p : float) (x : nat) : float :=
  sum (nth 0 (U (fun _ _ => p) (of_age x)) []).

(** The check of one age, and of [fuel] successive ages from [x] on,
    carrying the bounds along. *)
Definition age_ok_of (b : Z * Z * Z) (x : nat) : bool :=
  brackets_of b x (pow_below_of b x)
  && forallb (fun p => generator_ok p x) (pow_candidates_of b x).

Fixpoint ages_ok_from (b : Z * Z * Z) (x : nat) (fuel : nat) : bool :=
  match fuel with
  | O => true
  | S f => age_ok_of b x && ages_ok_from (pow_step b) (S x) f
  end.

End Double.

(** Two loop states [(Pk, a)] of [d]-by-[d] arrays that agree in entry
    [(i, j)] of both components. *)
Definition agree_at (d i j : nat) (s s' : matrix * matrix) : Prop :=
  Mat.square d (fst s) /\ Mat.square d (snd s) /\
  Mat.square d (fst s') /\ Mat.square d (snd s') /\
  Mat.entry (fst s) i j = Mat.entry (fst s') i j /\
  Mat.entry (snd s) i j = Mat.entry (snd s') i j.

(** Equality of two explicit arrays, entry by entry. *)
Ltac array_eq :=
  repeat match goal with
         | |- _ :: _ = _ :: _ => apply (f_equal2 cons)
         | |- @nil _ = @nil _ => reflexivity
         end.

(** ** Ranges and indexing *)

Lemma range_nil (lo hi : Z) : (hi <= lo)%Z -> range lo hi = [].
Proof.
  intros H. unfold range.
  replace (Z.to_nat (hi - lo)) with O by lia. reflexivity.
Qed.

Lemma range_snoc (lo hi : Z) :
  (lo <= hi)%Z -> range lo (hi + 1) = range lo hi ++ [hi].
Proof.
  intros H. unfold range.
  replace (Z.to_nat (hi + 1 - lo)) with (S (Z.to_nat (hi - lo))) by lia.
  rewrite seq_S, map_app. simpl. do 2 f_equal. lia.
Qed.

Lemma range_cons (lo hi : Z) :
  (lo < hi)%Z -> range lo hi = lo :: range (lo + 1) hi.
Proof.
  intros H. unfold range.
  replace (Z.to_nat (hi - lo)) with (S (Z.to_nat (hi - (lo + 1)))) by lia.
  simpl. f_equal; [lia|].
  rewrite <- seq_shift, map_map. apply map_ext. intros i. lia.
Qed.



Lemma in_range (k lo hi : Z) : In k (range lo hi) <-> (lo <= k < hi)%Z.
Proof.
  unfold range. rewrite in_map_iff. split.
  - intros (i & <- & Hi). apply in_seq in Hi. lia.
  - intros H. exists (Z.to_nat (k - lo)). split; [lia|].
    apply in_seq. lia.
Qed.

Lemma length_range (lo hi : Z) : length (range lo hi) = Z.to_nat (hi - lo).
Proof. unfold range. now rewrite length_map, length_seq. Qed.

Lemma nth_error_map_range {A : Type} (f : Z -> A) (hi k : Z) :
  (0 <= k < hi)%Z -> nth_error (map f (range 0 hi)) (Z.to_nat k) = Some (f k).
Proof.
  intros H. unfold range. rewrite map_map.
  rewrite nth_error_map, nth_error_seq.
  replace (Z.to_nat k <? Z.to_nat (hi - 0))%nat with true
    by (symmetry; apply Nat.ltb_lt; lia).
  simpl. do 2 f_equal. lia.
Qed.

Lemma getitem_ok (v : vector) (k : Z) (w : R) :
  (0 <= k)%Z -> nth_error v (Z.to_nat k) = Some w -> getitem v k = ret w.
Proof.
  intros Hk Hw. unfold getitem.
  assert (Hlt : (Z.to_nat k < length v)%nat)
    by (apply nth_error_Some; congruence).
  replace (k <? 0)%Z with false by (symmetry; apply Z.ltb_ge; lia).
  replace (0 <=? k)%Z with true by (symmetry; apply Z.leb_le; lia).
  replace (k <? Z.of_nat (length v))%Z with true
    by (symmetry; apply Z.ltb_lt; lia).
  simpl. now rewrite Hw.
Qed.


(** ** The duration loop *)


Lemma step_scalar_ok (x v : R) (P : R -> matrix) (k : Z) (s : matrix * matrix) (t : log) :
  step_scalar x v P k s t = (t ++ [x + IZR k], Ok (update (powerRZ v) x P s k)).
Proof. destruct s as [Pk a]. reflexivity. Qed.

Lemma step_ndarray_ok (x : R) (v : vector) (w : Z -> R) (P : R -> matrix) (k : Z)
    (s : matrix * matrix) (t : log) :
  getitem v k = ret (w k) ->
  step_ndarray x v P k s t = (t ++ [x + IZR k], Ok (update w x P s k)).
Proof.
  intros Hw. destruct s as [Pk a]. unfold step_ndarray, bind, call.
  rewrite Hw. reflexivity.
Qed.

(** The number branch never fails: it logs one callback evaluation per
    duration and folds [update] over the durations. *)
Lemma for_each_scalar (x v : R) (P : R -> matrix) (ks : list Z) (s : matrix * matrix) (t : log) :
  for_each ks (step_scalar x v P) s t
  = (t ++ ages x ks, Ok (fold_left (update (powerRZ v) x P) ks s)).
Proof.
  revert s t. induction ks as [|k ks IH]; intros s t; simpl.
  - unfold ret. now rewrite app_nil_r.
  - unfold bind. rewrite step_scalar_ok, IH, <- app_assoc. reflexivity.
Qed.

(** The array branch behaves the same as long as every index is in range. *)
Lemma for_each_ndarray (x : R) (v : vector) (w : Z -> R) (P : R -> matrix) (ks : list Z) :
  (forall k, In k ks -> getitem v k = ret (w k)) ->
  forall (s : matrix * matrix) (t : log),
    for_each ks (step_ndarray x v P) s t
    = (t ++ ages x ks, Ok (fold_left (update w x P) ks s)).
Proof.
  induction ks as [|k ks IH]; intros Hw s t; simpl.
  - unfold ret. now rewrite app_nil_r.
  - unfold bind. rewrite (step_ndarray_ok x v w) by (apply Hw; now left).
    rewrite IH by (intros; apply Hw; now right).
    rewrite <- app_assoc. reflexivity.
Qed.


(** The loop state after the durations [1..n]: the running product is the
    chain of [n + 1] callback values, the accumulator their weighted sum. *)
Lemma fold_update_direct_sum (w : Z -> R) (x : R) (P : R -> matrix) (n : nat) :
  fold_left (update w x P) (range 1 (Z.of_nat n + 1))
            (P x, Mat.scal (w 0%Z) (Mat.eye (length (P x))))
  = (chain Mat.mul P x n, direct_sum Mat.mul w P x n).
Proof.
  induction n as [|n IH].
  - reflexivity.
  - replace (Z.of_nat (S n) + 1)%Z with ((Z.of_nat n + 1) + 1)%Z by lia.
    rewrite range_snoc by lia. rewrite fold_left_app, IH.
    replace (Z.of_nat n + 1)%Z with (Z.of_nat (S n)) by lia.
    reflexivity.
Qed.

(** ** Arrays *)

Lemma scal_1 (a : matrix) : Mat.scal 1 a = a.
Proof.
  unfold Mat.scal.
  rewrite <- (map_id a) at 2. apply map_ext. intros r.
  rewrite <- (map_id r) at 2. apply map_ext. intros e. apply Rmult_1_l.
Qed.

Lemma length_eye (d : nat) : length (Mat.eye d) = d.
Proof. unfold Mat.eye. now rewrite length_map, length_seq. Qed.


(** ** What [annuities] computes *)

Lemma annuities_scalar (x v : R) (P : R -> matrix) (n : Z) (t : log) :
  annuities x (Scalar v) P n t
  = (t ++ x :: ages x (range 1 (n + 1)),
     Ok (snd (fold_left (update (powerRZ v) x P) (range 1 (n + 1))
                        (P x, Mat.eye (length (P x)))))).
Proof.
  unfold annuities. unfold bind at 1. unfold call.
  unfold bind. rewrite for_each_scalar.
  destruct (fold_left _ _ _) as [Pk a]. unfold ret. simpl.
  now rewrite <- app_assoc.
Qed.

Lemma annuities_ndarray (x : R) (v : vector) (w : Z -> R) (P : R -> matrix) (n : Z) (t : log) :
  (1 < length v)%nat ->
  (forall k, (0 <= k <= n)%Z -> getitem v k = ret (w k)) ->
  getitem v 0 = ret (w 0%Z) ->
  annuities x (Ndarray v) P n t
  = (t ++ x :: ages x (range 1 (n + 1)),
     Ok (snd (fold_left (update w x P) (range 1 (n + 1))
                        (P x, Mat.scal (w 0%Z) (Mat.eye (length (P x))))))).
Proof.
  intros Hlen Hw Hw0.
  unfold annuities. unfold bind at 1. unfold call.
  unfold bind at 1. rewrite Hw0. unfold ret at 1.
  replace (1 <? length v)%nat with true by (symmetry; now apply Nat.ltb_lt).
  unfold bind. rewrite (for_each_ndarray x v w).
  - destruct (fold_left _ _ _) as [Pk a]. unfold ret. simpl.
    now rewrite <- app_assoc.
  - intros k Hk. apply in_range in Hk. apply Hw. lia.
Qed.

(** With a horizon [n <= 0] the loop has no duration to visit. *)
Lemma annuities_scalar_no_loop (x v : R) (P : R -> matrix) (n : Z) :
  (n <= 0)%Z ->
  run (annuities x (Scalar v) P n) = ([x], Ok (Mat.eye (length (P x)))).
Proof.
  intros Hn. unfold run. rewrite annuities_scalar.
  rewrite range_nil by lia. reflexivity.
Qed.

Lemma annuities_ndarray_no_loop (x w0 : R) (v : vector) (P : R -> matrix) (n : Z) :
  (n <= 0)%Z \/ v = [] ->
  run (annuities x (Ndarray (w0 :: v)) P n)
  = ([x], Ok (Mat.scal w0 (Mat.eye (length (P x))))).
Proof.
  intros Hn. unfold run, annuities.
  unfold bind at 1. unfold call.
  unfold bind at 1. rewrite (getitem_ok _ 0 w0) by (simpl; (lia || reflexivity)).
  unfold ret at 1.
  destruct (1 <? length (w0 :: v))%nat eqn:Hlen; [|reflexivity].
  destruct Hn as [Hn| ->]; [|discriminate Hlen].
  rewrite range_nil by lia. reflexivity.
Qed.

Lemma annuities_empty_ndarray (x : R) (P : R -> matrix) (n : Z) :
  run (annuities x (Ndarray []) P n) = ([x], Raise IndexError).
Proof. reflexivity. Qed.

Lemma weight_0_scalar (v w0 : R) : weight (Scalar v) 0 = Some w0 -> w0 = 1.
Proof. simpl. congruence. Qed.

Lemma weight_0_ndarray (v : vector) (w0 : R) :
  weight (Ndarray v) 0 = Some w0 -> exists v', v = w0 :: v'.
Proof. destruct v as [|w v']; simpl; [discriminate|]. intros [= ->]. eauto. Qed.

Lemma annuities_no_loop (x : R) (v : discount) (P : R -> matrix) (n : Z) (w0 : R) :
  (n <= 0)%Z -> weight v 0 = Some w0 ->
  run (annuities x v P n) = ([x], Ok (Mat.scal w0 (Mat.eye (length (P x))))).
Proof.
  intros Hn Hw. destruct v as [v|v].
  - apply weight_0_scalar in Hw as ->.
    rewrite scal_1. now apply annuities_scalar_no_loop.
  - apply weight_0_ndarray in Hw as [v' ->].
    apply annuities_ndarray_no_loop. now left.
Qed.

(** In exact arithmetic the number branch is the direct summation of
    [v**k] times the entry-by-entry chain of callback values. *)
Lemma annuities_scalar_direct_sum (x v : R) (P : R -> matrix) (n : nat) :
  run (annuities x (Scalar v) P (Z.of_nat n))
  = (x :: ages x (range 1 (Z.of_nat n + 1)),
     Ok (direct_sum Mat.mul (powerRZ v) P x n)).
Proof.
  unfold run. rewrite annuities_scalar. simpl app.
  rewrite <- (scal_1 (Mat.eye _)).
  change 1 with (powerRZ v 0). rewrite fold_update_direct_sum. reflexivity.
Qed.

(** The same for an array that holds a weight for every duration up to
    the horizon. *)
Lemma annuities_ndarray_direct_sum (x : R) (v : vector) (P : R -> matrix) (n : nat) :
  (1 < length v)%nat -> (n < length v)%nat ->
  run (annuities x (Ndarray v) P (Z.of_nat n))
  = (x :: ages x (range 1 (Z.of_nat n + 1)),
     Ok (direct_sum Mat.mul (fun k => nth (Z.to_nat k) v 0) P x n)).
Proof.
  intros Hlen Hn. unfold run.
  assert (Hget : forall k, (0 <= k <= Z.of_nat n)%Z ->
            getitem v k = ret (nth (Z.to_nat k) v 0)).
  { intros k Hk. apply getitem_ok; [lia|]. apply nth_error_nth'. lia. }
  rewrite (annuities_ndarray x v (fun k => nth (Z.to_nat k) v 0)).
  - rewrite fold_update_direct_sum. reflexivity.
  - exact Hlen.
  - exact Hget.
  - apply Hget. lia.
Qed.

(** An array holding the powers [v**0 .. v**n] drives the loop exactly as
    the number [v] does. *)
Lemma annuities_powers_eq (x v : R) (P : R -> matrix) (n : Z) :
  (0 <= n)%Z ->
  run (annuities x (Ndarray (map (powerRZ v) (range 0 (n + 1)))) P n)
  = run (annuities x (Scalar v) P n).
Proof.
  intros Hn.
  assert (Hget : forall k, (0 <= k <= n)%Z ->
            getitem (map (powerRZ v) (range 0 (n + 1))) k = ret (powerRZ v k)).
  { intros k Hk. apply getitem_ok; [lia|]. apply nth_error_map_range. lia. }
  destruct (Z.eq_dec n 0) as [->|Hn0].
  - change (map (powerRZ v) (range 0 (0 + 1))) with [powerRZ v 0].
    rewrite (annuities_ndarray_no_loop x (powerRZ v 0) [] P 0) by now left.
    rewrite annuities_scalar_no_loop by lia.
    simpl powerRZ. now rewrite scal_1.
  - unfold run. rewrite (annuities_ndarray x _ (powerRZ v)).
    + rewrite annuities_scalar. simpl powerRZ. now rewrite scal_1.
    + rewrite length_map, length_range. lia.
    + exact Hget.
    + apply Hget. lia.
Qed.


(** ** Properties of [annuities] *)

(** C5.  With horizon [n = 0] the valuation returns [weight(0)] times the
    [d]-by-[d] identity, where [weight(0)] is [1] for a number and the first
    entry for an array of weights. *)
Theorem annuities_zero_horizon (x : R) (v : discount) (P : R -> matrix) (w0 : R) :
  weight v 0 = Some w0 ->
  snd (run (annuities x v P 0)) = Ok (Mat.scal w0 (Mat.eye (length (P x)))).
Proof.
  intros Hw. rewrite (annuities_no_loop x v P 0 w0) by (lia || assumption).
  reflexivity.
Qed.

Lemma annuities_zero_horizon_witness :
  weight (Ndarray [3; 2]) 0 = Some 3 /\
  snd (run (annuities 25 (Ndarray [3; 2]) half_move 0)) = Ok (Mat.scal 3 (Mat.eye 4)).
Proof.
  split; [reflexivity|].
  apply (annuities_zero_horizon 25 (Ndarray [3; 2]) half_move 3). reflexivity.
Defined.

(** C9.  Called with an array holding exactly one weight, the valuation
    skips the loop for every horizon [n >= 0]: the callback is evaluated at
    the starting age only and the result is that weight times the identity. *)
Theorem annuities_single_weight (x w0 : R) (P : R -> matrix) (n : Z) :
  (0 <= n)%Z ->
  run (annuities x (Ndarray [w0]) P n)
  = ([x], Ok (Mat.scal w0 (Mat.eye (length (P x))))).
Proof. intros _. apply annuities_ndarray_no_loop. now right. Qed.

Lemma annuities_single_weight_witness :
  (0 <= 20)%Z /\
  run (annuities 25 (Ndarray [3]) half_move 20) = ([25], Ok (Mat.scal 3 (Mat.eye 4))).
Proof.
  split; [lia|]. apply (annuities_single_weight 25 3 half_move 20). lia.
Defined.

(** C10, as the code has it.  For every horizon [n <= 0], negative ones
    included, the loop runs zero times and the callback is evaluated at the
    starting age only.  With a number or a non-empty array of weights the
    valuation returns normally with [weight(0)] times the identity; with an
    empty array, which has no [weight(0)], it raises [IndexError] at [v[0]]. *)
Theorem annuities_nonpositive_horizon (x : R) (v : discount) (P : R -> matrix) (n : Z) :
  (n <= 0)%Z ->
  (forall w0, weight v 0 = Some w0 ->
     run (annuities x v P n) = ([x], Ok (Mat.scal w0 (Mat.eye (length (P x)))))) /\
  (weight v 0 = None -> run (annuities x v P n) = ([x], Raise IndexError)).
Proof.
  intros Hn. split.
  - intros w0 Hw. now apply annuities_no_loop.
  - intros Hw. destruct v as [v|[|w v]]; try discriminate Hw.
    apply annuities_empty_ndarray.
Qed.

Lemma annuities_nonpositive_horizon_witness :
  (-3 <= 0)%Z /\
  (forall w0, weight (Ndarray [3; 2]) 0 = Some w0 ->
     run (annuities 25 (Ndarray [3; 2]) half_move (-3))
     = ([25], Ok (Mat.scal w0 (Mat.eye 4)))) /\
  (weight (Ndarray [3; 2]) 0 = None ->
     run (annuities 25 (Ndarray [3; 2]) half_move (-3)) = ([25], Raise IndexError)).
Proof.
  split; [lia|].
  apply (annuities_nonpositive_horizon 25 (Ndarray [3; 2]) half_move (-3)). lia.
Defined.

(** C10 fails as stated: with an empty array of weights and horizon [-1]
    the call does not return; it raises [IndexError]. *)
Lemma empty_weights_nonpositive_horizon_raises :
  run (annuities 25 (Ndarray []) half_move (-1)) = ([25], Raise IndexError) /\
  forall a, snd (run (annuities 25 (Ndarray []) half_move (-1))) <> Ok a.
Proof.
  assert (H : run (annuities 25 (Ndarray []) half_move (-1)) = ([25], Raise IndexError))
    by reflexivity.
  split; [exact H|]. intros a. rewrite H. discriminate.
Qed.

(** C3, as the code has it.  A negative horizon is not rejected: no
    [InvalidHorizon] is raised, the callback is evaluated once, at the
    starting age, and for a number or a non-empty array of weights the call
    returns [weight(0)] times the identity. *)
Theorem annuities_negative_horizon (x : R) (v : discount) (P : R -> matrix) (n : Z) :
  (n < 0)%Z ->
  fst (run (annuities x v P n)) = [x] /\
  snd (run (annuities x v P n)) <> Raise InvalidHorizon /\
  forall w0, weight v 0 = Some w0 ->
    snd (run (annuities x v P n)) = Ok (Mat.scal w0 (Mat.eye (length (P x)))).
Proof.
  intros Hn.
  assert (H : forall w0, weight v 0 = Some w0 ->
            run (annuities x v P n) = ([x], Ok (Mat.scal w0 (Mat.eye (length (P x)))))).
  { intros w0 Hw. apply annuities_no_loop; [lia|assumption]. }
  destruct (weight v 0) as [w0|] eqn:Hw.
  - rewrite (H w0 eq_refl). repeat split; [discriminate|].
    intros w [= <-]. reflexivity.
  - destruct v as [v|[|w v]]; try discriminate Hw.
    rewrite annuities_empty_ndarray. repeat split; discriminate.
Qed.

Lemma annuities_negative_horizon_witness :
  (-1 < 0)%Z /\
  fst (run (annuities 25 (Scalar (1 / 1.04)) half_move (-1))) = [25] /\
  snd (run (annuities 25 (Scalar (1 / 1.04)) half_move (-1))) <> Raise InvalidHorizon /\
  forall w0, weight (Scalar (1 / 1.04)) 0 = Some w0 ->
    snd (run (annuities 25 (Scalar (1 / 1.04)) half_move (-1)))
    = Ok (Mat.scal w0 (Mat.eye 4)).
Proof.
  split; [lia|].
  apply (annuities_negative_horizon 25 (Scalar (1 / 1.04)) half_move (-1)). lia.
Defined.

(** C3 fails as stated: with horizon [-1] the call evaluates the callback
    and returns the identity instead of raising [InvalidHorizon]. *)
Lemma horizon_minus_one_returns :
  run (annuities 25 (Scalar (1 / 1.04)) half_move (-1)) = ([25], Ok (Mat.eye 4)) /\
  ~ (run (annuities 25 (Scalar (1 / 1.04)) half_move (-1)) = ([], Raise InvalidHorizon)).
Proof.
  assert (H : run (annuities 25 (Scalar (1 / 1.04)) half_move (-1))
              = ([25], Ok (Mat.eye 4))) by reflexivity.
  split; [exact H|]. rewrite H. discriminate.
Qed.






(** C1.  The running product of [annuities] is NumPy's [*] on arrays, the
    entry-by-entry product, not the row-by-column product.  At starting age
    25, discount factor 1/2, the callback [half_move] and horizon 1 the code
    returns the direct summation over entry-by-entry chains, which differs
    from the summation over row-by-column chains [P(x + k) @ ... @ P(x)] and
    from the naive summation of [v**k] times the [k]-step transition matrix. *)
Theorem annuities_entrywise_not_matrix_product :
  snd (run (annuities 25 (Scalar (1 / 2)) half_move 1))
  = Ok (direct_sum Mat.mul (powerRZ (1 / 2)) half_move 25 1) /\
  direct_sum Mat.mul (powerRZ (1 / 2)) half_move 25 1
  = [ [ 9/8; 1/8; 0; 0 ]; [ 0; 3/2; 0; 0 ]; [ 0; 0; 3/2; 0 ]; [ 0; 0; 0; 3/2 ] ] /\
  direct_sum Mat.matmul (powerRZ (1 / 2)) half_move 25 1
  = [ [ 9/8; 3/8; 0; 0 ]; [ 0; 3/2; 0; 0 ]; [ 0; 0; 3/2; 0 ]; [ 0; 0; 0; 3/2 ] ] /\
  naive_sum (powerRZ (1 / 2)) half_move 25 1
  = [ [ 5/4; 1/4; 0; 0 ]; [ 0; 3/2; 0; 0 ]; [ 0; 0; 3/2; 0 ]; [ 0; 0; 0; 3/2 ] ] /\
  snd (run (annuities 25 (Scalar (1 / 2)) half_move 1))
  <> Ok (direct_sum Mat.matmul (powerRZ (1 / 2)) half_move 25 1) /\
  snd (run (annuities 25 (Scalar (1 / 2)) half_move 1))
  <> Ok (naive_sum (powerRZ (1 / 2)) half_move 25 1).
Proof.
  assert (Hcode : snd (run (annuities 25 (Scalar (1 / 2)) half_move 1))
                  = Ok (direct_sum Mat.mul (powerRZ (1 / 2)) half_move 25 1)).
  { change 1%Z with (Z.of_nat 1). now rewrite annuities_scalar_direct_sum. }
  assert (Hmul : direct_sum Mat.mul (powerRZ (1 / 2)) half_move 25 1
    = [ [ 9/8; 1/8; 0; 0 ]; [ 0; 3/2; 0; 0 ]; [ 0; 0; 3/2; 0 ]; [ 0; 0; 0; 3/2 ] ]).
  { cbn. array_eq; change (Pos.to_nat 1) with 1%nat; lra. }
  assert (Hmat : direct_sum Mat.matmul (powerRZ (1 / 2)) half_move 25 1
    = [ [ 9/8; 3/8; 0; 0 ]; [ 0; 3/2; 0; 0 ]; [ 0; 0; 3/2; 0 ]; [ 0; 0; 0; 3/2 ] ]).
  { cbn. array_eq; change (Pos.to_nat 1) with 1%nat; lra. }
  assert (Hnaive : naive_sum (powerRZ (1 / 2)) half_move 25 1
    = [ [ 5/4; 1/4; 0; 0 ]; [ 0; 3/2; 0; 0 ]; [ 0; 0; 3/2; 0 ]; [ 0; 0; 0; 3/2 ] ]).
  { cbn. array_eq; change (Pos.to_nat 1) with 1%nat; lra. }
  repeat split; try assumption.
  - rewrite Hcode, Hmul, Hmat. intros [= H]. lra.
  - rewrite Hcode, Hmul, Hnaive. intros [= H]. lra.
Qed.

(** ** The generator [U] *)

Lemma U_row_sums (x : R) : Forall (fun r => Mat.sum r = 0) (U x).
Proof.
  unfold U, Mat.sum. repeat apply Forall_cons; try apply Forall_nil; simpl; lra.
Qed.

(** In exact arithmetic every row of [U x] sums to exactly zero. *)
Lemma U_exact_generator (x : R) :
  Forall (fun r => Mat.sum r = 0) (U x) /\
  (forall i, (i < 4)%nat -> Mat.entry (U x) i i = - off_diagonal_sum (U x) i) /\
  nth 3 (U x) [] = [0; 0; 0; 0].
Proof.
  split; [|split].
  - apply U_row_sums.
  - intros i Hi.
    destruct i as [|[|[|[|i]]]]; [| | | |lia];
      unfold off_diagonal_sum, Mat.sum, Mat.entry, U; simpl; lra.
  - reflexivity.
Qed.

(** *** The bounds on the exact powers *)

Section DoubleBounds.

Local Open Scope Z_scope.

Lemma pow_step_sound (L H s C : Z) :
  0 <= s -> L * 2 ^ s <= C <= H * 2 ^ s ->
  let '(L', H', s') := Double.pow_step (L, H, s) in
  0 <= s' /\ L' * 2 ^ s' <= C * Double.c_mantissa <= H' * 2 ^ s'.
Proof.
  intros Hs [HL HH]. unfold Double.pow_step.
  assert (Hc : 0 < Double.c_mantissa) by reflexivity.
  set (c := Double.c_mantissa) in *.
  set (k := Double.narrow (H * c)).
  assert (Hk : 0 <= k) by (unfold k, Double.narrow; lia).
  destruct (k =? 0) eqn:Ek.
  - split; [exact Hs|]. clearbody c. nia.
  - assert (Hk0 : 0 < 2 ^ k) by (apply Z.pow_pos_nonneg; lia).
    assert (Hs0 : 0 < 2 ^ s) by (apply Z.pow_pos_nonneg; lia).
    rewrite !Z.shiftr_div_pow2 by exact Hk.
    rewrite Z.pow_add_r by assumption.
    pose proof (Z.mul_div_le (L * c) (2 ^ k) Hk0) as H1.
    pose proof (Z.mul_succ_div_gt (H * c) (2 ^ k) Hk0) as H2.
    set (a := L * c / 2 ^ k) in *.
    set (b := H * c / 2 ^ k) in *.
    clearbody a b c k.
    split; [lia|]. split.
    + apply Z.le_trans with (L * c * 2 ^ s); [|nia].
      replace (a * (2 ^ s * 2 ^ k)) with (2 ^ k * a * 2 ^ s) by ring. nia.
    + apply Z.le_trans with (H * c * 2 ^ s); [nia|].
      replace ((b + 1) * (2 ^ s * 2 ^ k)) with (2 ^ k * Z.succ b * 2 ^ s) by ring.
      nia.
Qed.

Lemma pow_bounds_sound (x : nat) :
  let '(L, H, s) := Double.pow_bounds x in
  0 <= s /\ L * 2 ^ s <= Double.c_mantissa ^ Z.of_nat x <= H * 2 ^ s.
Proof.
  induction x as [|x IH].
  - simpl. lia.
  - cbn [Double.pow_bounds]. destruct (Double.pow_bounds x) as [[L H] s].
    destruct IH as [Hs HC].
    pose proof (pow_step_sound L H s _ Hs HC) as Hstep.
    destruct (Double.pow_step (L, H, s)) as [[L' H'] s'].
    rewrite Nat2Z.inj_succ, Z.pow_succ_r by lia.
    rewrite (Z.mul_comm Double.c_mantissa). exact Hstep.
Qed.

(** A double that passes the check on the bounds encloses the exact power. *)
Lemma brackets_sound (x : nat) (p : float) :
  Double.brackets_of (Double.pow_bounds x) x p = true -> Double.brackets_power x p.
Proof.
  unfold Double.brackets_of, Double.brackets_power.
  pose proof (pow_bounds_sound x) as Hb.
  destruct (Double.pow_bounds x) as [[L H] s]. destruct Hb as [Hs [HL HH]].
  destruct (Prim2SF p) as [| | |[|] m e]; try discriminate.
  cbv zeta. set (g0 := e - Double.c_exponent * Z.of_nat x).
  set (C := Double.c_mantissa ^ Z.of_nat x) in *.
  intros Hb. apply andb_true_iff in Hb as [H1 H2].
  apply Z.leb_le in H1. apply Z.ltb_lt in H2.
  rewrite !Z.shiftl_mul_pow2 in H1, H2 by lia.
  assert (Hs0 : 0 < 2 ^ s) by (apply Z.pow_pos_nonneg; lia).
  destruct (Z_le_gt_dec 0 (g0 - s)) as [Hg|Hg].
  - rewrite (Z.max_l (g0 - s)), (Z.max_r (- (g0 - s))) in H1, H2 by lia.
    rewrite (Z.max_l g0), (Z.max_r (- g0)) by lia.
    replace g0 with ((g0 - s) + s) by ring.
    rewrite Z.pow_add_r by lia.
    assert (0 < 2 ^ (g0 - s)) by (apply Z.pow_pos_nonneg; lia).
    rewrite Z.pow_0_r, !Z.mul_1_r in *.
    set (q := 2 ^ (g0 - s)) in *. clearbody q C. nia.
  - rewrite (Z.max_r (g0 - s)), (Z.max_l (- (g0 - s))) in H1, H2 by lia.
    assert (Hq : 0 < 2 ^ (- (g0 - s))) by (apply Z.pow_pos_nonneg; lia).
    destruct (Z_le_gt_dec 0 g0) as [Hg0|Hg0].
    + rewrite (Z.max_l g0), (Z.max_r (- g0)) by lia.
      assert (E : 2 ^ s = 2 ^ (- (g0 - s)) * 2 ^ g0)
        by (rewrite <- Z.pow_add_r by lia; f_equal; ring).
      assert (0 < 2 ^ g0) by (apply Z.pow_pos_nonneg; lia).
      rewrite E in HL, HH.
      rewrite Z.pow_0_r, !Z.mul_1_r in *.
      set (q := 2 ^ (- (g0 - s))) in *. set (r := 2 ^ g0) in *.
      clearbody q r C. nia.
    + rewrite (Z.max_r g0), (Z.max_l (- g0)) by lia.
      assert (E : 2 ^ (- (g0 - s)) = 2 ^ s * 2 ^ (- g0))
        by (rewrite <- Z.pow_add_r by lia; f_equal; ring).
      assert (0 < 2 ^ (- g0)) by (apply Z.pow_pos_nonneg; lia).
      rewrite E in H1, H2.
      rewrite Z.pow_0_r, !Z.mul_1_r in *.
      set (q := 2 ^ s) in *. set (r := 2 ^ (- g0)) in *.
      clearbody q r C. nia.
Qed.

End DoubleBounds.

Lemma ages_ok_from_sound (fuel x0 y : nat) :
  Double.ages_ok_from (Double.pow_bounds x0) x0 fuel = true ->
  (x0 <= y < x0 + fuel)%nat ->
  Double.age_ok_of (Double.pow_bounds y) y = true.
Proof.
  revert x0. induction fuel as [|fuel IH]; intros x0 Hok Hy; [lia|].
  cbn [Double.ages_ok_from] in Hok. apply andb_true_iff in Hok as [H0 Hrest].
  destruct (Nat.eq_dec y x0) as [->|Hne]; [exact H0|].
  apply (IH (S x0)); [exact Hrest|lia].
Qed.

(** The check passes at the integer ages 0 to 120. *)
Lemma Double_ages_0_120 :
  Double.ages_ok_from (Double.pow_bounds 0) 0 121 = true.
Proof. vm_compute. reflexivity. Qed.

(** C8, as the code has it.  In exact arithmetic, at every age every row
    of [U x] sums to exactly zero, each diagonal entry being the negated sum
    of the other entries of its row, and the row of the absorbing state is
    identically zero.  Computed in double precision, the same holds with the
    row sums within 1e-10 at the integer ages 0 to 120, whichever of the
    doubles around the exact power [pow] returns for [1.07**x]. *)
Theorem U_generator_rows :
  (forall x : R,
     Forall (fun r => Mat.sum r = 0) (U x) /\
     (forall i, (i < 4)%nat -> Mat.entry (U x) i i = - off_diagonal_sum (U x) i) /\
     nth 3 (U x) [] = [0; 0; 0; 0]) /\
  (forall (x : nat) (p : float),
     (x <= 120)%nat -> In p (Double.pow_candidates x) ->
     Double.brackets_power x (Double.pow_below x) /\
     Double.generator_ok p x = true).
Proof.
  split; [exact U_exact_generator|].
  intros x p Hx Hp.
  pose proof (ages_ok_from_sound 121 0 x Double_ages_0_120 ltac:(lia)) as H.
  unfold Double.age_ok_of in H. apply andb_true_iff in H as [Hb Hc].
  split; [now apply brackets_sound|].
  rewrite forallb_forall in Hc. now apply Hc.
Qed.

Lemma U_generator_rows_witness :
  (25 <= 120)%nat /\
  In (Double.pow_below 25) (Double.pow_candidates 25) /\
  Double.brackets_power 25 (Double.pow_below 25) /\
  Double.generator_ok (Double.pow_below 25) 25 = true.
Proof.
  assert (Hx : (25 <= 120)%nat) by lia.
  assert (Hp : In (Double.pow_below 25) (Double.pow_candidates 25))
    by (right; left; reflexivity).
  split; [exact Hx|]. split; [exact Hp|].
  exact (proj2 U_generator_rows 25%nat (Double.pow_below 25) Hx Hp).
Defined.

(** C8 fails as stated: at age 331 the doubles of row 0 of [U] sum, from
    the left, to [-2^-31], about -4.66e-10, for each of the candidate values
    of [1.07**331] around the exact power; that is beyond 1e-10. *)
Lemma U_row_0_sum_at_age_331 :
  Double.brackets_power 331 (Double.pow_below 331) /\
  map (fun p => Double.row_0_sum p 331) (Double.pow_candidates 331)
  = [ (-0x1p-31)%float; (-0x1p-31)%float; (-0x1p-31)%float; (-0x1p-31)%float ] /\
  (PrimFloat.abs (-0x1p-31) <=? Double.tol)%float = false.
Proof.
  split; [|split].
  - apply brackets_sound. vm_compute. reflexivity.
  - vm_compute. reflexivity.
  - vm_compute. reflexivity.
Qed.

(** ** Series *)

Lemma series_ext (f g : nat -> R) (l : R) :
  (forall k, f k = g k) -> infinite_sum f l -> infinite_sum g l.
Proof.
  intros Hfg Hf eps Heps. destruct (Hf eps Heps) as [N HN].
  exists N. intros n Hn.
  rewrite <- (sum_eq f g n) by (intros; apply Hfg). now apply HN.
Qed.

Lemma series_minus (f g : nat -> R) (l l' : R) :
  infinite_sum f l -> infinite_sum g l' ->
  infinite_sum (fun k => f k - g k) (l - l').
Proof.
  intros Hf Hg eps Heps.
  destruct (CV_minus (sum_f_R0 f) (sum_f_R0 g) l l' Hf Hg eps Heps) as [N HN].
  exists N. intros n Hn. rewrite minus_sum. now apply HN.
Qed.

Lemma series_scal (c : R) (f : nat -> R) (l : R) :
  infinite_sum f l -> infinite_sum (fun k => c * f k) (c * l).
Proof.
  intros Hf.
  assert (Hc : Un_cv (fun _ : nat => c) c).
  { intros eps Heps. exists O. intros n _.
    unfold R_dist. rewrite Rminus_diag, Rabs_R0. exact Heps. }
  intros eps Heps.
  destruct (CV_mult (fun _ => c) (sum_f_R0 f) c l Hc Hf eps Heps) as [N HN].
  exists N. intros n Hn.
  rewrite (sum_eq _ (fun k => f k * c) n) by (intros; apply Rmult_comm).
  rewrite <- scal_sum. now apply HN.
Qed.

Lemma series_stationary (f : nat -> R) (l : R) :
  (forall n, sum_f_R0 f n = l) -> infinite_sum f l.
Proof.
  intros Hf eps Heps. exists O. intros n _.
  rewrite Hf. unfold R_dist. now rewrite Rminus_diag, Rabs_R0.
Qed.

Lemma series_exp (a : R) : infinite_sum (fun k => / INR (fact k) * a ^ k) (exp a).
Proof. unfold exp. destruct (exist_exp a) as [l Hl]. exact Hl. Qed.

Lemma series_zero : infinite_sum (fun k => / INR (fact k) * 0) 0.
Proof.
  apply series_stationary. induction n as [|n IH]; simpl; [|rewrite IH]; ring.
Qed.

Lemma series_delta : infinite_sum (fun k => / INR (fact k) * delta k) 1.
Proof.
  apply series_stationary. induction n as [|n IH].
  - simpl. field.
  - cbn [sum_f_R0 delta]. rewrite IH. ring.
Qed.

Lemma series_absorbed (b : R) :
  infinite_sum (fun k => / INR (fact k) * (delta k - b ^ k)) (1 - exp b).
Proof.
  apply (series_ext (fun k => / INR (fact k) * delta k - / INR (fact k) * b ^ k)).
  - intros k. ring.
  - apply series_minus; [apply series_delta|apply series_exp].
Qed.

Lemma hsum_closed (a b : R) (k : nat) : (a - b) * hsum a b k = a ^ k - b ^ k.
Proof.
  induction k as [|k IH]; simpl; [ring|].
  replace ((a - b) * (a * hsum a b k + b ^ k))
    with (a * ((a - b) * hsum a b k) + (a - b) * b ^ k) by ring.
  rewrite IH. ring.
Qed.

Lemma series_hsum (c a b : R) :
  a <> b ->
  infinite_sum (fun k => / INR (fact k) * (c * hsum a b k))
               (c * ((exp a - exp b) / (a - b))).
Proof.
  intros Hab.
  assert (Hd : a - b <> 0) by lra.
  apply (series_ext (fun k => c * ((/ (a - b)) *
           (/ INR (fact k) * a ^ k - / INR (fact k) * b ^ k)))).
  - intros k.
    replace (/ INR (fact k) * a ^ k - / INR (fact k) * b ^ k)
      with (/ INR (fact k) * ((a - b) * hsum a b k))
      by (rewrite hsum_closed; ring).
    field. split; [apply INR_fact_neq_0|exact Hd].
  - apply series_scal.
    replace ((exp a - exp b) / (a - b)) with (/ (a - b) * (exp a - exp b))
      by (field; exact Hd).
    apply series_scal. apply series_minus; apply series_exp.
Qed.

(** ** Powers of the generator *)

Lemma mpow_U (x : R) (k : nat) : mpow 4 (U x) k = generator_pow (U x) k.
Proof.
  induction k as [|k IH].
  - unfold generator_pow. cbn. array_eq; ring.
  - cbn [mpow]. rewrite IH. unfold generator_pow, Mat.matmul, Mat.entry, U.
    cbn. array_eq; ring.
Qed.

(** ** The exponential of the generator *)

Lemma square4_row (E : matrix) (i : nat) :
  Mat.square 4 E -> (i < 4)%nat ->
  nth i E [] = [ Mat.entry E i 0; Mat.entry E i 1; Mat.entry E i 2; Mat.entry E i 3 ].
Proof.
  intros [Hlen Hrows] Hi.
  assert (Hr : length (nth i E []) = 4%nat).
  { rewrite Forall_forall in Hrows. apply Hrows. apply nth_In. lia. }
  unfold Mat.entry. destruct (nth i E []) as [|e0 [|e1 [|e2 [|e3 [|e4 r]]]]];
    try discriminate Hr. reflexivity.
Qed.

Lemma square4_rows (E : matrix) :
  Mat.square 4 E -> E = [ nth 0 E []; nth 1 E []; nth 2 E []; nth 3 E [] ].
Proof.
  intros [Hlen _].
  destruct E as [|r0 [|r1 [|r2 [|r3 [|r4 E]]]]]; try discriminate Hlen.
  reflexivity.
Qed.

(** Every entry of an exponential of [U x] is the sum of the series of the
    corresponding entries of the closed-form powers. *)
Lemma is_expm_U_entry (x : R) (E : matrix) (i j : nat) :
  is_expm (U x) E -> (i < 4)%nat -> (j < 4)%nat ->
  infinite_sum (fun k => / INR (fact k) * Mat.entry (generator_pow (U x) k) i j)
               (Mat.entry E i j).
Proof.
  intros [_ HE] Hi Hj.
  apply (series_ext (fun k => / INR (fact k) * Mat.entry (mpow 4 (U x) k) i j)).
  - intros k. now rewrite mpow_U.
  - now apply HE.
Qed.

(** An exponential is determined by the array it is taken of. *)
Lemma is_expm_U_unique (x : R) (E E' : matrix) :
  is_expm (U x) E -> is_expm (U x) E' -> E = E'.
Proof.
  intros HE HE'.
  assert (Hrow : forall i, (i < 4)%nat -> nth i E [] = nth i E' []).
  { intros i Hi.
    rewrite (square4_row E i), (square4_row E' i) by (apply HE || apply HE' || exact Hi).
    array_eq;
      (eapply uniqueness_sum; [apply (is_expm_U_entry x E)|apply (is_expm_U_entry x E')];
       (assumption || lia)). }
  rewrite (square4_rows E), (square4_rows E') by (apply HE || apply HE').
  array_eq; apply Hrow; lia.
Qed.

(** Away from age -10, where [u00 = -u03], the closed form is an
    exponential of [U x]. *)
Lemma is_expm_U_closed (x : R) :
  x <> -10 -> is_expm (U x) (expm_generator (U x)).
Proof.
  intros Hx. split.
  - split; [reflexivity|]. repeat constructor.
  - intros i j Hi Hj. change (length (U x)) with 4%nat in Hi, Hj.
    apply (series_ext (fun k => / INR (fact k) * Mat.entry (generator_pow (U x) k) i j)).
    { intros k. now rewrite mpow_U. }
    assert (Hab : Mat.entry (U x) 0 0 <> Mat.entry (U x) 1 1).
    { unfold Mat.entry, U. simpl. lra. }
    unfold generator_pow, expm_generator.
    set (a := Mat.entry (U x) 0 0) in *. set (b := Mat.entry (U x) 1 1) in *.
    set (p := Mat.entry (U x) 0 1). set (q := Mat.entry (U x) 0 2).
    clear Hx.
    destruct i as [|[|[|[|i]]]]; [| | | |lia];
      (destruct j as [|[|[|[|j]]]]; [| | | |lia]);
      cbn [Mat.entry nth];
      first [ apply series_exp | apply series_zero | apply series_delta
            | apply series_absorbed | now apply series_hsum ].
Qed.

(** In exact arithmetic the closed-form exponential of [U x] is a stochastic
    matrix at every non-negative age. *)
Lemma expm_generator_U_stochastic (x : R) :
  0 <= x ->
  Forall (fun r => Mat.sum r = 1) (expm_generator (U x)) /\
  Forall (Forall (fun e => 0 <= e <= 1)) (expm_generator (U x)).
Proof.
  intros Hx. unfold expm_generator, U.
  cbv zeta. cbn [Mat.entry nth].
  set (m := 0.001 + 0.0004 * Rpower 1.07 x).
  set (p := 0.001 * x).
  set (a := - (p + 0.01 + m)). set (b := - m).
  assert (Hm : 0 < m).
  { unfold m, Rpower. pose proof (exp_pos (x * ln 1.07)). lra. }
  assert (Hp : 0 <= p) by (unfold p; lra).
  assert (Hab : a < b) by (unfold a, b; lra).
  pose proof (exp_pos a) as Ha0.
  pose proof (exp_increasing a b Hab) as Hea.
  assert (Hb1 : exp b < 1).
  { rewrite <- exp_0. apply exp_increasing. unfold b. lra. }
  set (H := (exp a - exp b) / (a - b)).
  assert (HH : H * (p + 0.01) = exp b - exp a).
  { unfold H, a, b. field. lra. }
  clearbody H. set (ea := exp a) in *. set (eb := exp b) in *.
  clearbody ea eb. clear Hab. clearbody a b. clear Hm. clearbody m p.
  assert (HH0 : 0 <= H).
  { apply Rmult_le_reg_r with (p + 0.01); lra. }
  assert (HpH : 0 <= p * H) by (apply Rmult_le_pos; assumption).
  split.
  - unfold Mat.sum. repeat apply Forall_cons; try apply Forall_nil; simpl; lra.
  - repeat apply Forall_cons; try apply Forall_nil; lra.
Qed.

(** ** Properties of [P] *)

(** C7.  For every age [x], the last row of [P x], the exponential of
    [U x], is exactly the identity row [(0, 0, 0, 1)]. *)
Theorem P_absorbing_row (expm : matrix -> matrix) (x : R) :
  is_expm (U x) (P expm x) ->
  nth 3 (P expm x) [] = [0; 0; 0; 1].
Proof.
  intros HE.
  rewrite (square4_row (P expm x) 3) by (apply HE || lia).
  array_eq;
    (eapply uniqueness_sum;
     [ apply (is_expm_U_entry x _ 3 _ HE); lia
     | unfold generator_pow; cbn [Mat.entry nth];
       first [apply series_zero | apply series_delta] ]).
Qed.

Lemma P_absorbing_row_witness :
  is_expm (U 25) (P expm_generator 25) /\
  nth 3 (P expm_generator 25) [] = [0; 0; 0; 1].
Proof.
  assert (HE : is_expm (U 25) (P expm_generator 25))
    by (apply is_expm_U_closed; lra).
  split; [exact HE|]. exact (P_absorbing_row expm_generator 25 HE).
Defined.

(** C2.  For every age [x] of the supported domain [0, 120], every row of
    [P x], the exponential of [U x], sums to one within 1e-10 and every
    entry lies in [0, 1] within the same tolerance. *)
Theorem P_stochastic (expm : matrix -> matrix) (x : R) :
  0 <= x <= 120 ->
  is_expm (U x) (P expm x) ->
  Forall (fun r => Rabs (Mat.sum r - 1) <= tol) (P expm x) /\
  Forall (Forall (fun e => - tol <= e <= 1 + tol)) (P expm x).
Proof.
  intros [Hx _] HE.
  rewrite (is_expm_U_unique x (P expm x) (expm_generator (U x)) HE)
    by (apply is_expm_U_closed; lra).
  destruct (expm_generator_U_stochastic x Hx) as [Hsum Hent].
  split.
  - eapply Forall_impl; [|exact Hsum].
    intros r ->. rewrite Rminus_diag, Rabs_R0. unfold tol. lra.
  - eapply Forall_impl; [|exact Hent].
    intros r Hr. eapply Forall_impl; [|exact Hr].
    intros e He. simpl in He. unfold tol. lra.
Qed.

Lemma P_stochastic_witness :
  0 <= 25 <= 120 /\ is_expm (U 25) (P expm_generator 25) /\
  Forall (fun r => Rabs (Mat.sum r - 1) <= tol) (P expm_generator 25) /\
  Forall (Forall (fun e => - tol <= e <= 1 + tol)) (P expm_generator 25).
Proof.
  assert (HE : is_expm (U 25) (P expm_generator 25))
    by (apply is_expm_U_closed; lra).
  split; [lra|]. split; [exact HE|].
  apply (P_stochastic expm_generator 25); [lra|exact HE].
Defined.

(** ** Shapes and entries of arrays *)

Lemma length_zip_with {A B C : Type} (f : A -> B -> C) (l : list A) (l' : list B) :
  length l = length l' -> length (Mat.zip_with f l l') = length l.
Proof.
  revert l'. induction l as [|a l IH]; intros [|b l'] H; simpl in *;
    try discriminate; [reflexivity|]. f_equal. apply IH. now injection H.
Qed.

Lemma nth_zip_with {A B C : Type} (f : A -> B -> C) (l : list A) (l' : list B)
    (i : nat) (da : A) (db : B) (dc : C) :
  (i < length l)%nat -> (i < length l')%nat ->
  nth i (Mat.zip_with f l l') dc = f (nth i l da) (nth i l' db).
Proof.
  revert l' i. induction l as [|a l IH]; intros [|b l'] i Hl Hl'; simpl in *;
    try lia. destruct i as [|i]; [reflexivity|]. apply IH; lia.
Qed.

Lemma square_row (d : nat) (a : matrix) (i : nat) :
  Mat.square d a -> (i < d)%nat -> length (nth i a []) = d.
Proof.
  intros [Hlen Hrows] Hi. rewrite Forall_forall in Hrows.
  apply Hrows, nth_In. lia.
Qed.

Lemma square_zip_with (f : R -> R -> R) (d : nat) (a b : matrix) :
  Mat.square d a -> Mat.square d b ->
  Mat.square d (Mat.zip_with (Mat.zip_with f) a b).
Proof.
  intros [Ha Hra] [Hb Hrb]. split.
  - rewrite length_zip_with; [exact Ha|].
    transitivity d; [exact Ha|symmetry; exact Hb].
  - clear Ha Hb. revert b Hrb.
    induction Hra as [|r a Hr Hra IH]; intros [|r' b] Hrb; simpl;
      try constructor.
    + inversion Hrb as [|? ? Hr' Hrb']; subst.
      rewrite length_zip_with; [reflexivity|symmetry; exact Hr'].
    + inversion Hrb; subst. now apply IH.
Qed.

Lemma square_scal (c : R) (d : nat) (a : matrix) :
  Mat.square d a -> Mat.square d (Mat.scal c a).
Proof.
  intros [Ha Hra]. split.
  - unfold Mat.scal. now rewrite length_map.
  - unfold Mat.scal. apply Forall_map.
    eapply Forall_impl; [|exact Hra]. intros r Hr. now rewrite length_map.
Qed.

Lemma square_eye (d : nat) : Mat.square d (Mat.eye d).
Proof.
  split; [apply length_eye|].
  unfold Mat.eye. apply Forall_map, Forall_forall. intros i _.
  unfold Mat.unit_row. now rewrite length_map, length_seq.
Qed.

Lemma entry_zip_with (f : R -> R -> R) (d : nat) (a b : matrix) (i j : nat) :
  Mat.square d a -> Mat.square d b -> (i < d)%nat -> (j < d)%nat ->
  Mat.entry (Mat.zip_with (Mat.zip_with f) a b) i j
  = f (Mat.entry a i j) (Mat.entry b i j).
Proof.
  intros Ha Hb Hi Hj. unfold Mat.entry, vector.
  assert (Hia : (i < length a)%nat) by (destruct Ha as [Ha _]; now rewrite Ha).
  assert (Hib : (i < length b)%nat) by (destruct Hb as [Hb _]; now rewrite Hb).
  rewrite (nth_zip_with (Mat.zip_with f) a b i [] [] [] Hia Hib).
  apply nth_zip_with; rewrite (square_row d) by assumption; exact Hj.
Qed.

Lemma entry_scal (c : R) (d : nat) (a : matrix) (i j : nat) :
  Mat.square d a -> (i < d)%nat -> (j < d)%nat ->
  Mat.entry (Mat.scal c a) i j = c * Mat.entry a i j.
Proof.
  intros Ha Hi Hj. unfold Mat.entry, Mat.scal, vector.
  change (@nil R) with (map (Rmult c) []) at 1. rewrite map_nth.
  rewrite (nth_indep _ 0 (c * 0)) by (rewrite length_map, (square_row d); assumption).
  apply map_nth.
Qed.

Lemma entry_eye (d i j : nat) :
  (i < d)%nat -> (j < d)%nat ->
  Mat.entry (Mat.eye d) i j = if Nat.eqb i j then 1 else 0.
Proof.
  intros Hi Hj. unfold Mat.entry, Mat.eye, vector.
  rewrite (nth_indep _ [] (Mat.unit_row d 0)) by (now rewrite length_map, length_seq).
  rewrite map_nth, seq_nth by exact Hi. unfold Mat.unit_row.
  rewrite (nth_indep _ 0 (if Nat.eqb (0 + i) 0 then 1 else 0))
    by (now rewrite length_map, length_seq).
  rewrite (map_nth (fun j => if Nat.eqb (0 + i) j then 1 else 0)).
  now rewrite seq_nth by exact Hj.
Qed.

(** ** Invariants of the duration loop *)

Lemma getitem_cases (v : vector) (k : Z) :
  (exists w, getitem v k = ret w) \/ getitem v k = raise IndexError.
Proof.
  unfold getitem. destruct (_ && _)%bool; [|now right].
  destruct (nth_error _ _) as [w|]; [left; now exists w|now right].
Qed.

Lemma step_ndarray_cases (x : R) (v : vector) (P : R -> matrix) (k : Z)
    (s : matrix * matrix) (t : log) :
  (exists w, step_ndarray x v P k s t
             = (t ++ [x + IZR k], Ok (update (fun _ => w) x P s k))) \/
  step_ndarray x v P k s t = (t ++ [x + IZR k], Raise IndexError).
Proof.
  destruct (getitem_cases v k) as [[w Hw]|Hw].
  - left. exists w. now apply (step_ndarray_ok x v (fun _ => w)).
  - right. destruct s as [Pk a]. unfold step_ndarray, bind, call.
    now rewrite Hw.
Qed.

Lemma for_each_ok_inv {S : Type} (I : S -> Prop) (ks : list Z) (body : Z -> S -> comp S) :
  (forall k s t t' s', In k ks -> I s -> body k s t = (t', Ok s') -> I s') ->
  forall s t t' s', I s -> for_each ks body s t = (t', Ok s') -> I s'.
Proof.
  induction ks as [|k ks IH]; intros Hbody s t t' s' Hs; simpl.
  - unfold ret. intros [= _ <-]. exact Hs.
  - unfold bind. destruct (body k s t) as [t1 [s1|e]] eqn:E; [|discriminate].
    apply IH.
    + intros; eapply Hbody; eauto. now right.
    + eapply Hbody; eauto. now left.
Qed.

Lemma age_ge (x : R) (k : Z) : (0 <= k)%Z -> x <= x + IZR k.
Proof. intros Hk. apply IZR_le in Hk. lra. Qed.

Lemma update_square (w : Z -> R) (x : R) (P : R -> matrix) (d : nat)
    (s : matrix * matrix) (k : Z) :
  (forall y, x <= y -> Mat.square d (P y)) -> (0 <= k)%Z ->
  Mat.square d (fst s) /\ Mat.square d (snd s) ->
  Mat.square d (fst (update w x P s k)) /\ Mat.square d (snd (update w x P s k)).
Proof.
  intros HP Hk [H1 H2]. unfold update. cbn [fst snd].
  assert (Hm : Mat.square d (Mat.mul (P (x + IZR k)) (fst s))).
  { apply square_zip_with; [apply HP, age_ge, Hk|exact H1]. }
  split; [exact Hm|].
  apply square_zip_with; [exact H2|now apply square_scal].
Qed.

Lemma chain_square (P : R -> matrix) (x : R) (d k : nat) :
  (forall y, x <= y -> Mat.square d (P y)) -> Mat.square d (chain Mat.mul P x k).
Proof.
  intros HP. induction k as [|k IH]; cbn [chain].
  - apply HP. lra.
  - apply square_zip_with; [apply HP, age_ge; lia|exact IH].
Qed.

Lemma direct_sum_square (w : Z -> R) (P : R -> matrix) (x : R) (d n : nat) :
  (forall y, x <= y -> Mat.square d (P y)) ->
  Mat.square d (direct_sum Mat.mul w P x n).
Proof.
  intros HP.
  assert (Hd : length (P x) = d) by (apply HP; lra).
  induction n as [|n IH]; cbn [direct_sum].
  - rewrite Hd. apply square_scal, square_eye.
  - apply square_zip_with; [exact IH|]. apply square_scal. now apply chain_square.
Qed.

Lemma entry_direct_sum_S (w : Z -> R) (P : R -> matrix) (x : R) (d n i j : nat) :
  (forall y, x <= y -> Mat.square d (P y)) -> (i < d)%nat -> (j < d)%nat ->
  Mat.entry (direct_sum Mat.mul w P x (S n)) i j
  = Mat.entry (direct_sum Mat.mul w P x n) i j
    + w (Z.of_nat (S n)) * Mat.entry (chain Mat.mul P x (S n)) i j.
Proof.
  intros HP Hi Hj. cbn [direct_sum]. unfold Mat.add.
  rewrite (entry_zip_with Rplus d); try assumption.
  - f_equal. apply (entry_scal _ d); try assumption. now apply chain_square.
  - now apply direct_sum_square.
  - apply square_scal. now apply chain_square.
Qed.

Lemma entry_chain_S (P : R -> matrix) (x : R) (d k i j : nat) :
  (forall y, x <= y -> Mat.square d (P y)) -> (i < d)%nat -> (j < d)%nat ->
  Mat.entry (chain Mat.mul P x (S k)) i j
  = Mat.entry (P (x + IZR (Z.of_nat (S k)))) i j * Mat.entry (chain Mat.mul P x k) i j.
Proof.
  intros HP Hi Hj. cbn [chain]. unfold Mat.mul.
  apply (entry_zip_with Rmult d); try assumption.
  - apply HP, age_ge. lia.
  - now apply chain_square.
Qed.

Lemma chain_nonneg (P : R -> matrix) (x : R) (d k i j : nat) :
  (forall y, x <= y -> Mat.square d (P y)) ->
  (forall y i j, x <= y -> 0 <= Mat.entry (P y) i j) ->
  (i < d)%nat -> (j < d)%nat ->
  0 <= Mat.entry (chain Mat.mul P x k) i j.
Proof.
  intros HP Hpos Hi Hj. induction k as [|k IH].
  - apply Hpos. lra.
  - rewrite (entry_chain_S P x d) by assumption.
    apply Rmult_le_pos; [apply Hpos, age_ge; lia|exact IH].
Qed.

(** ** Further properties of [annuities] *)

(** X2.  Called with a number as discount factor, a horizon [n >= 0] and
    a callback that returns [d]-by-[d] arrays, the valuation evaluates the
    callback exactly [n + 1] times, at the ages [x, x + 1, ..., x + n] in
    this order. *)
Theorem annuities_scalar_callback_log (x v : R) (P : R -> matrix) (n : Z) (d : nat) :
  (0 <= n)%Z ->
  (forall y, x <= y -> Mat.square d (P y)) ->
  fst (run (annuities x (Scalar v) P n)) = x :: ages x (range 1 (n + 1)) /\
  length (fst (run (annuities x (Scalar v) P n))) = Z.to_nat (n + 1).
Proof.
  intros Hn _. unfold run. rewrite annuities_scalar. cbn [fst app].
  split; [reflexivity|].
  cbn [length]. unfold ages. rewrite length_map, length_range. lia.
Qed.

Lemma annuities_scalar_callback_log_witness :
  (0 <= 2)%Z /\
  (forall y, 25 <= y -> Mat.square 4 (half_move y)) /\
  fst (run (annuities 25 (Scalar (1 / 1.04)) half_move 2))
  = 25 :: ages 25 (range 1 (2 + 1)) /\
  length (fst (run (annuities 25 (Scalar (1 / 1.04)) half_move 2))) = Z.to_nat (2 + 1).
Proof.
  assert (HP : forall y, 25 <= y -> Mat.square 4 (half_move y)).
  { intros y _. split; [reflexivity|].
    repeat apply Forall_cons; try apply Forall_nil; reflexivity. }
  split; [lia|]. split; [exact HP|].
  apply (annuities_scalar_callback_log 25 (1 / 1.04) half_move 2 4);
    [lia|exact HP].
Defined.

(** X3.  Weights after index [n] are never read: for a horizon [n >= 0]
    and an array with at least [n + 1] weights, appending further weights
    changes neither the result nor the callback evaluations. *)
Theorem annuities_ignores_later_weights (x : R) (v extra : vector) (P : R -> matrix) (n : Z) :
  (0 <= n)%Z -> (n + 1 <= Z.of_nat (length v))%Z ->
  run (annuities x (Ndarray (v ++ extra)) P n) = run (annuities x (Ndarray v) P n).
Proof.
  intros Hn Hlen. destruct (Z.eq_dec n 0) as [->|Hn0].
  - destruct v as [|w0 v]; [simpl in Hlen; lia|].
    rewrite <- app_comm_cons.
    rewrite !annuities_ndarray_no_loop by (left; lia). reflexivity.
  - set (w := fun k : Z => nth (Z.to_nat k) v 0).
    assert (Hget : forall k, (0 <= k <= n)%Z -> getitem v k = ret (w k)).
    { intros k Hk. apply getitem_ok; [lia|]. apply nth_error_nth'. lia. }
    assert (Hget' : forall k, (0 <= k <= n)%Z -> getitem (v ++ extra) k = ret (w k)).
    { intros k Hk. apply getitem_ok; [lia|].
      rewrite nth_error_app1 by lia. apply nth_error_nth'. lia. }
    unfold run.
    rewrite (annuities_ndarray x (v ++ extra) w), (annuities_ndarray x v w);
      try assumption; try (apply Hget; lia); try (apply Hget'; lia);
      try (rewrite ?length_app; lia).
    reflexivity.
Qed.

Lemma annuities_ignores_later_weights_witness :
  (0 <= 1)%Z /\ (1 + 1 <= Z.of_nat (length [3; 2]))%Z /\
  run (annuities 25 (Ndarray ([3; 2] ++ [7; 7])) half_move 1)
  = run (annuities 25 (Ndarray [3; 2]) half_move 1).
Proof.
  split; [lia|]. split; [simpl; lia|].
  apply (annuities_ignores_later_weights 25 [3; 2] [7; 7] half_move 1);
    simpl; lia.
Defined.

(** X4.  When the callback returns a [d]-by-[d] array at every age from
    the starting age on, every result of [annuities] is [d]-by-[d]. *)
Theorem annuities_shape (x : R) (v : discount) (P : R -> matrix) (n : Z) (d : nat)
    (a : matrix) :
  (forall y, x <= y -> Mat.square d (P y)) ->
  snd (run (annuities x v P n)) = Ok a ->
  Mat.square d a.
Proof.
  intros HP.
  assert (Hd : length (P x) = d) by (apply HP; lra).
  set (I := fun s : matrix * matrix => Mat.square d (fst s) /\ Mat.square d (snd s)).
  assert (Hloop : forall body ks s t t' s',
            (forall k s t, In k ks ->
               (exists w, body k s t = (t ++ [x + IZR k], Ok (update w x P s k))) \/
               body k s t = (t ++ [x + IZR k], Raise IndexError)) ->
            (forall k, In k ks -> (0 <= k)%Z) ->
            I s -> for_each ks body s t = (t', Ok s') -> I s').
  { intros body ks s t t' s' Hbody Hks. apply for_each_ok_inv.
    intros k s0 t0 t1 s1 Hin Hs0 E.
    destruct (Hbody k s0 t0 Hin) as [[w Hw]|Hw]; rewrite Hw in E; [|discriminate].
    injection E as _ <-. apply update_square; auto. }
  assert (Hpos : forall k, In k (range 1 (n + 1)) -> (0 <= k)%Z).
  { intros k Hk. apply in_range in Hk. lia. }
  assert (HI0 : forall c, I (P x, Mat.scal c (Mat.eye (length (P x))))).
  { intros c. split; cbn [fst snd]; [apply HP; lra|].
    rewrite Hd. apply square_scal, square_eye. }
  unfold run, annuities. unfold bind at 1. unfold call. cbn [app].
  destruct v as [v|v].
  - unfold bind.
    destruct (for_each _ _ _ _) as [t1 [[Pk a1]|e1]] eqn:E; [|discriminate].
    unfold ret. cbn [snd]. intros [= <-].
    rewrite <- (scal_1 (Mat.eye _)) in E.
    apply (Hloop _ _ _ _ _ _) in E; [apply E| |exact Hpos|apply HI0].
    intros k s t _. left. exists (powerRZ v). apply step_scalar_ok.
  - unfold bind at 1.
    destruct (getitem_cases v 0) as [[w Hw]|Hw]; rewrite Hw; [|discriminate].
    unfold ret at 1. destruct (1 <? length v)%nat.
    + unfold bind.
      destruct (for_each _ _ _ _) as [t1 [[Pk a1]|e1]] eqn:E; [|discriminate].
      unfold ret. cbn [snd]. intros [= <-].
      apply (Hloop _ _ _ _ _ _) in E; [apply E| |exact Hpos|apply HI0].
      intros k s t _.
      destruct (step_ndarray_cases x v P k s t) as [[w' Hs]|Hs]; eauto.
    + unfold ret. cbn [snd]. intros [= <-]. apply (HI0 w).
Qed.

Lemma annuities_shape_witness :
  (forall y, 25 <= y -> Mat.square 4 (half_move y)) /\
  snd (run (annuities 25 (Ndarray [3]) half_move 2)) = Ok (Mat.scal 3 (Mat.eye 4)) /\
  Mat.square 4 (Mat.scal 3 (Mat.eye 4)).
Proof.
  assert (HP : forall y, 25 <= y -> Mat.square 4 (half_move y)).
  { intros y _. split; [reflexivity|]. repeat apply Forall_cons; try apply Forall_nil; reflexivity. }
  assert (H : snd (run (annuities 25 (Ndarray [3]) half_move 2)) = Ok (Mat.scal 3 (Mat.eye 4)))
    by reflexivity.
  split; [exact HP|]. split; [exact H|].
  exact (annuities_shape 25 (Ndarray [3]) half_move 2 4 _ HP H).
Defined.

(** X5.  For a discount factor [v >= 0] and a callback whose arrays are
    [d]-by-[d] with non-negative entries, no entry of the result decreases
    when the horizon grows from [n] to [n + 1]. *)
Theorem annuities_grows_with_horizon (x v : R) (P : R -> matrix) (d n i j : nat) :
  0 <= v ->
  (forall y, x <= y -> Mat.square d (P y)) ->
  (forall y i j, x <= y -> 0 <= Mat.entry (P y) i j) ->
  (i < d)%nat -> (j < d)%nat ->
  exists a b : matrix,
    snd (run (annuities x (Scalar v) P (Z.of_nat n))) = Ok a /\
    snd (run (annuities x (Scalar v) P (Z.of_nat n + 1))) = Ok b /\
    Mat.entry a i j <= Mat.entry b i j.
Proof.
  intros Hv HP Hpos Hi Hj.
  replace (Z.of_nat n + 1)%Z with (Z.of_nat (S n)) by lia.
  rewrite !annuities_scalar_direct_sum. cbn [snd].
  eexists. eexists. split; [reflexivity|]. split; [reflexivity|].
  rewrite (entry_direct_sum_S _ P x d) by assumption.
  assert (0 <= powerRZ v (Z.of_nat (S n)) * Mat.entry (chain Mat.mul P x (S n)) i j).
  { apply Rmult_le_pos.
    - rewrite <- pow_powerRZ. now apply pow_le.
    - now apply (chain_nonneg P x d). }
  lra.
Qed.

Lemma annuities_grows_with_horizon_witness :
  0 <= 1 / 2 /\
  (forall y, 25 <= y -> Mat.square 4 (half_move y)) /\
  (forall y i j, 25 <= y -> 0 <= Mat.entry (half_move y) i j) /\
  (0 < 4)%nat /\ (1 < 4)%nat /\
  exists a b : matrix,
    snd (run (annuities 25 (Scalar (1 / 2)) half_move (Z.of_nat 1))) = Ok a /\
    snd (run (annuities 25 (Scalar (1 / 2)) half_move (Z.of_nat 1 + 1))) = Ok b /\
    Mat.entry a 0 1 <= Mat.entry b 0 1.
Proof.
  assert (HP : forall y, 25 <= y -> Mat.square 4 (half_move y)).
  { intros y _. split; [reflexivity|]. repeat apply Forall_cons; try apply Forall_nil; reflexivity. }
  assert (Hpos : forall y i j, 25 <= y -> 0 <= Mat.entry (half_move y) i j).
  { intros y i j _. unfold Mat.entry, half_move.
    destruct i as [|[|[|[|[|i]]]]]; destruct j as [|[|[|[|[|j]]]]]; simpl; lra. }
  assert (Hv : 0 <= 1 / 2) by lra.
  split; [exact Hv|]. split; [exact HP|]. split; [exact Hpos|].
  split; [lia|]. split; [lia|].
  apply (annuities_grows_with_horizon 25 (1 / 2) half_move 4 1 0 1 Hv HP Hpos); lia.
Defined.

(** ** Further properties of [U] *)

Lemma Rpower_107_pos (x : R) : 0 < Rpower 1.07 x.
Proof. unfold Rpower. apply exp_pos. Qed.

(** X6.  The intensities off the diagonal of [U x] are all non-negative
    exactly when the age is non-negative: [u01 = 0.001 * x] is not clamped
    and is negative at every negative age. *)
Theorem U_off_diagonal_nonneg_iff (x : R) :
  (forall i j, i <> j -> 0 <= Mat.entry (U x) i j) <-> 0 <= x.
Proof.
  split.
  - intros H. specialize (H 0%nat 1%nat ltac:(discriminate)).
    unfold Mat.entry, U in H. cbn [nth] in H. lra.
  - intros Hx i j Hij. pose proof (Rpower_107_pos x) as Hc.
    unfold Mat.entry, U, vector. cbv zeta.
    set (c := Rpower 1.07 x) in *. clearbody c.
    destruct (le_lt_dec 4 i) as [Hi|Hi].
    { rewrite (@nth_overflow (list R) _ i) by (simpl; lia). destruct j; simpl; lra. }
    destruct (le_lt_dec 4 j) as [Hj|Hj].
    { destruct i as [|[|[|[|i]]]]; [| | | |lia];
        (destruct j as [|[|[|[|j]]]]; try lia); cbn [nth]; destruct j; lra. }
    destruct i as [|[|[|[|i]]]]; [| | | |lia];
      (destruct j as [|[|[|[|j]]]]; [| | | |lia]);
      first [ exfalso; apply Hij; reflexivity | cbn [nth]; lra ].
Qed.

(** X7.  The mortality intensity [u03 = A + B * c**x] exceeds its floor
    [A = 0.001], grows strictly with the age, and is the intensity towards
    the absorbing state from each of the states 0, 1 and 2. *)
Theorem U_mortality_increasing (x y : R) :
  x < y ->
  0.001 < Mat.entry (U x) 0 3 < Mat.entry (U y) 0 3 /\
  Mat.entry (U x) 1 3 = Mat.entry (U x) 0 3 /\
  Mat.entry (U x) 2 3 = Mat.entry (U x) 0 3.
Proof.
  intros Hxy. unfold Mat.entry, U. cbn [nth].
  pose proof (Rpower_107_pos x) as Hc.
  assert (Hlt : Rpower 1.07 x < Rpower 1.07 y) by (apply Rpower_lt; lra).
  repeat split; lra.
Qed.

Lemma U_mortality_increasing_witness :
  25 < 26 /\
  0.001 < Mat.entry (U 25) 0 3 < Mat.entry (U 26) 0 3 /\
  Mat.entry (U 25) 1 3 = Mat.entry (U 25) 0 3 /\
  Mat.entry (U 25) 2 3 = Mat.entry (U 25) 0 3.
Proof.
  assert (H : 25 < 26) by lra.
  split; [exact H|]. exact (U_mortality_increasing 25 26 H).
Defined.

(** ** Further properties of [P] *)

Lemma series_plus (f g : nat -> R) (l l' : R) :
  infinite_sum f l -> infinite_sum g l' ->
  infinite_sum (fun k => f k + g k) (l + l').
Proof.
  intros Hf Hg eps Heps.
  destruct (CV_plus (sum_f_R0 f) (sum_f_R0 g) l l' Hf Hg eps Heps) as [N HN].
  exists N. intros n Hn. rewrite plus_sum. now apply HN.
Qed.

(** Every row of every power of [U x] sums to [delta k]. *)
Lemma generator_pow_row_sum (x : R) (k i : nat) :
  (i < 4)%nat ->
  Mat.entry (generator_pow (U x) k) i 0 + Mat.entry (generator_pow (U x) k) i 1
  + Mat.entry (generator_pow (U x) k) i 2 + Mat.entry (generator_pow (U x) k) i 3
  = delta k.
Proof.
  intros Hi. unfold generator_pow.
  set (a := Mat.entry (U x) 0 0). set (b := Mat.entry (U x) 1 1).
  set (p := Mat.entry (U x) 0 1). set (q := Mat.entry (U x) 0 2).
  assert (Hab : a - b = - (p + q)).
  { unfold a, b, p, q, Mat.entry, U. cbn [nth]. ring. }
  pose proof (hsum_closed a b k) as Hh. rewrite Hab in Hh.
  set (h := hsum a b k) in *. clearbody h. clearbody a b p q.
  destruct i as [|[|[|[|i]]]]; [| | | |lia]; cbn [Mat.entry nth]; lra.
Qed.

Lemma is_expm_U_row_sum (x : R) (E : matrix) (i : nat) :
  is_expm (U x) E -> (i < 4)%nat ->
  Mat.entry E i 0 + Mat.entry E i 1 + Mat.entry E i 2 + Mat.entry E i 3 = 1.
Proof.
  intros HE Hi.
  eapply uniqueness_sum; [|apply series_delta].
  eapply series_ext;
    [|apply series_plus; [apply series_plus; [apply series_plus|]|];
      apply (is_expm_U_entry x E i); (exact HE || exact Hi || lia)].
  intros k. cbv beta. rewrite <- (generator_pow_row_sum x k i Hi). ring.
Qed.

Lemma is_expm_U_rows_sum (x : R) (E : matrix) :
  is_expm (U x) E -> Forall (fun r => Mat.sum r = 1) E.
Proof.
  intros HE.
  assert (Hsq : Mat.square 4 E) by apply HE.
  rewrite (square4_rows E Hsq).
  repeat apply Forall_cons; try apply Forall_nil;
    rewrite (square4_row E) by (exact Hsq || lia);
    unfold Mat.sum; cbn [fold_left];
    match goal with
    | |- context [Mat.entry E ?i 0] =>
        pose proof (is_expm_U_row_sum x E i HE ltac:(lia))
    end; lra.
Qed.

Lemma is_expm_U_cell (x : R) (E : matrix) (i j : nat) (l : R) :
  is_expm (U x) E -> (i < 4)%nat -> (j < 4)%nat ->
  infinite_sum (fun k => / INR (fact k) * Mat.entry (generator_pow (U x) k) i j) l ->
  Mat.entry E i j = l.
Proof.
  intros HE Hi Hj Hl.
  eapply uniqueness_sum; [apply (is_expm_U_entry x E i j HE Hi Hj)|exact Hl].
Qed.

(** X8.  At every real age, also outside [0, 120], every row of [P x],
    the exponential of [U x], sums to exactly one. *)
Theorem P_rows_sum_to_one_at_every_age (expm : matrix -> matrix) (x : R) :
  is_expm (U x) (P expm x) ->
  Forall (fun r => Mat.sum r = 1) (P expm x).
Proof.
  intros HE. apply Forall_forall. intros r Hr.
  apply (In_nth _ _ []) in Hr as (i & Hi & <-).
  assert (Hsq : Mat.square 4 (P expm x)) by apply HE.
  assert (Hi4 : (i < 4)%nat) by (destruct Hsq as [Hlen _]; now rewrite <- Hlen).
  pose proof (square4_row _ i Hsq Hi4) as Hrow. unfold vector in *.
  rewrite Hrow. unfold Mat.sum. cbn [fold_left].
  rewrite <- (is_expm_U_row_sum x _ i HE Hi4). ring.
Qed.

Lemma P_rows_sum_to_one_at_every_age_witness :
  is_expm (U (-50)) (P expm_generator (-50)) /\
  Forall (fun r => Mat.sum r = 1) (P expm_generator (-50)).
Proof.
  assert (HE : is_expm (U (-50)) (P expm_generator (-50)))
    by (apply is_expm_U_closed; lra).
  split; [exact HE|]. exact (P_rows_sum_to_one_at_every_age expm_generator (-50) HE).
Defined.

(** X9.  At every age the diagonal of [P x] holds the probabilities of
    staying: [exp(u00)] in state 0 and [exp(-u03)] in the states 1 and 2;
    and the probability of reaching the absorbing state within the year is
    [1 - exp(-u03)] from each of the states 0, 1 and 2. *)
Theorem P_stay_and_absorption (expm : matrix -> matrix) (x : R) :
  is_expm (U x) (P expm x) ->
  Mat.entry (P expm x) 0 0 = exp (Mat.entry (U x) 0 0) /\
  Mat.entry (P expm x) 1 1 = exp (- Mat.entry (U x) 0 3) /\
  Mat.entry (P expm x) 2 2 = exp (- Mat.entry (U x) 0 3) /\
  forall i, (i < 3)%nat ->
    Mat.entry (P expm x) i 3 = 1 - exp (- Mat.entry (U x) 0 3).
Proof.
  intros HE.
  assert (Hb : - Mat.entry (U x) 0 3 = Mat.entry (U x) 1 1) by reflexivity.
  rewrite Hb.
  repeat split.
  - apply (is_expm_U_cell x); [exact HE|lia|lia|]. apply series_exp.
  - apply (is_expm_U_cell x); [exact HE|lia|lia|]. apply series_exp.
  - apply (is_expm_U_cell x); [exact HE|lia|lia|]. apply series_exp.
  - intros i Hi. apply (is_expm_U_cell x); [exact HE|lia|lia|].
    destruct i as [|[|[|i]]]; [| | |lia]; apply series_absorbed.
Qed.

Lemma P_stay_and_absorption_witness :
  is_expm (U 25) (P expm_generator 25) /\
  Mat.entry (P expm_generator 25) 0 0 = exp (Mat.entry (U 25) 0 0) /\
  Mat.entry (P expm_generator 25) 1 1 = exp (- Mat.entry (U 25) 0 3) /\
  Mat.entry (P expm_generator 25) 2 2 = exp (- Mat.entry (U 25) 0 3) /\
  forall i, (i < 3)%nat ->
    Mat.entry (P expm_generator 25) i 3 = 1 - exp (- Mat.entry (U 25) 0 3).
Proof.
  assert (HE : is_expm (U 25) (P expm_generator 25))
    by (apply is_expm_U_closed; lra).
  split; [exact HE|]. exact (P_stay_and_absorption expm_generator 25 HE).
Defined.

(** X10.  At every age [P x] has the zero pattern of [U x]: nothing below
    the diagonal and no transition from state 1 to state 2. *)
Theorem P_zero_pattern (expm : matrix -> matrix) (x : R) (i j : nat) :
  is_expm (U x) (P expm x) ->
  In (i, j) [ (1, 0); (1, 2); (2, 0); (2, 1); (3, 0); (3, 1); (3, 2) ]%nat ->
  Mat.entry (P expm x) i j = 0.
Proof.
  intros HE Hij. cbn [In] in Hij.
  repeat (destruct Hij as [[= <- <-]|Hij];
          [apply (is_expm_U_cell x); [exact HE|lia|lia|apply series_zero]|]).
  contradiction.
Qed.

Lemma P_zero_pattern_witness :
  is_expm (U 25) (P expm_generator 25) /\
  In (1, 2)%nat [ (1, 0); (1, 2); (2, 0); (2, 1); (3, 0); (3, 1); (3, 2) ]%nat /\
  Mat.entry (P expm_generator 25) 1 2 = 0.
Proof.
  assert (HE : is_expm (U 25) (P expm_generator 25))
    by (apply is_expm_U_closed; lra).
  assert (Hin : In (1, 2)%nat
            [ (1, 0); (1, 2); (2, 0); (2, 1); (3, 0); (3, 1); (3, 2) ]%nat)
    by (right; left; reflexivity).
  split; [exact HE|]. split; [exact Hin|].
  exact (P_zero_pattern expm_generator 25 1 2 HE Hin).
Defined.

(** X11.  At every age other than -10 the probabilities of moving from
    state 0 to the states 1 and 2 within the year are the intensities
    [u01] and [u02] times [(exp(u00) - exp(u11)) / (u00 - u11)]. *)
Theorem P_moves_from_state_0 (expm : matrix -> matrix) (x : R) :
  x <> -10 ->
  is_expm (U x) (P expm x) ->
  let H := (exp (Mat.entry (U x) 0 0) - exp (Mat.entry (U x) 1 1))
           / (Mat.entry (U x) 0 0 - Mat.entry (U x) 1 1) in
  Mat.entry (P expm x) 0 1 = Mat.entry (U x) 0 1 * H /\
  Mat.entry (P expm x) 0 2 = Mat.entry (U x) 0 2 * H.
Proof.
  intros Hx HE H.
  rewrite (is_expm_U_unique x (P expm x) (expm_generator (U x)) HE)
    by (now apply is_expm_U_closed).
  split; reflexivity.
Qed.

Lemma P_moves_from_state_0_witness :
  25 <> -10 /\ is_expm (U 25) (P expm_generator 25) /\
  let H := (exp (Mat.entry (U 25) 0 0) - exp (Mat.entry (U 25) 1 1))
           / (Mat.entry (U 25) 0 0 - Mat.entry (U 25) 1 1) in
  Mat.entry (P expm_generator 25) 0 1 = Mat.entry (U 25) 0 1 * H /\
  Mat.entry (P expm_generator 25) 0 2 = Mat.entry (U 25) 0 2 * H.
Proof.
  assert (Hx : 25 <> -10) by lra.
  assert (HE : is_expm (U 25) (P expm_generator 25))
    by (apply is_expm_U_closed; lra).
  split; [exact Hx|]. split; [exact HE|].
  exact (P_moves_from_state_0 expm_generator 25 Hx HE).
Defined.

(** X12.  At every age [x <= -12] the entry [P(x)[0][0]] exceeds one:
    there [u00 > 0], and [P x] is not a matrix of probabilities. *)
Theorem P_not_stochastic_below_minus_12 (expm : matrix -> matrix) (x : R) :
  x <= -12 ->
  is_expm (U x) (P expm x) ->
  1 < Mat.entry (P expm x) 0 0.
Proof.
  intros Hx HE.
  rewrite (is_expm_U_cell x (P expm x) 0 0 (exp (Mat.entry (U x) 0 0)) HE)
    by (lia || apply series_exp).
  rewrite <- exp_0. apply exp_increasing.
  unfold Mat.entry, U. cbn [nth].
  assert (Hc : Rpower 1.07 x < 1).
  { unfold Rpower. rewrite <- exp_0. apply exp_increasing.
    assert (0 < ln 1.07) by (rewrite <- ln_1; apply ln_increasing; lra).
    nra. }
  lra.
Qed.

Lemma P_not_stochastic_below_minus_12_witness :
  -12 <= -12 /\ is_expm (U (-12)) (P expm_generator (-12)) /\
  1 < Mat.entry (P expm_generator (-12)) 0 0.
Proof.
  assert (Hx : -12 <= -12) by lra.
  assert (HE : is_expm (U (-12)) (P expm_generator (-12)))
    by (apply is_expm_U_closed; lra).
  split; [exact Hx|]. split; [exact HE|].
  exact (P_not_stochastic_below_minus_12 expm_generator (-12) Hx HE).
Defined.

(** ** The check cells *)

Lemma amax_constant (l : list R) (c : R) :
  l <> [] -> (forall e, In e l -> e = c) -> amax l = Some c.
Proof.
  destruct l as [|e l]; [congruence|]. intros _ Hl. cbn [amax].
  rewrite (Hl e) by now left.
  assert (Hl' : forall e', In e' l -> e' = c) by (intros; apply Hl; now right).
  clear Hl. induction l as [|e' l IH]; cbn [fold_left]; [reflexivity|].
  rewrite (Hl' e') by now left.
  rewrite Rmax_left by lra. apply IH. intros; apply Hl'; now right.
Qed.

(** X13.  In exact arithmetic the first check cell, the largest row sum of
    [P x] over the ages 0 to 100, evaluates to exactly one. *)
Theorem row_sum_check_is_one (expm : matrix -> matrix) :
  (forall k, (0 <= k <= 100)%Z -> is_expm (U (IZR k)) (P expm (IZR k))) ->
  row_sum_check expm = Some 1.
Proof.
  intros HE. unfold row_sum_check. apply amax_constant.
  - rewrite (range_cons 0 101) by lia. cbn [map concat].
    assert (Hsq : Mat.square 4 (P expm 0)) by (apply (HE 0%Z); lia).
    rewrite (square4_rows _ Hsq). discriminate.
  - intros e He. apply in_concat in He as (l & Hl & He).
    apply in_map_iff in Hl as (k & <- & Hk). apply in_range in Hk.
    apply in_map_iff in He as (r & <- & Hr).
    assert (Hrows := is_expm_U_rows_sum _ _ (HE k ltac:(lia))).
    rewrite Forall_forall in Hrows. now apply Hrows.
Qed.

Lemma row_sum_check_is_one_witness :
  (forall k, (0 <= k <= 100)%Z ->
     is_expm (U (IZR k)) (P expm_generator (IZR k))) /\
  row_sum_check expm_generator = Some 1.
Proof.
  assert (HE : forall k, (0 <= k <= 100)%Z ->
            is_expm (U (IZR k)) (P expm_generator (IZR k))).
  { intros k [Hk _]. apply is_expm_U_closed. apply IZR_le in Hk. lra. }
  split; [exact HE|]. exact (row_sum_check_is_one expm_generator HE).
Defined.

Lemma inverse_powers_eq (c : R) (m : Z) :
  inverse_powers c m = map (powerRZ (1 / c)) (range 0 m).
Proof.
  unfold inverse_powers. apply map_ext. intros k.
  unfold Rdiv. rewrite !Rmult_1_l. symmetry. apply powerRZ_inv'.
Qed.

Lemma zip_with_minus_self (r : vector) :
  Mat.zip_with Rminus r r = repeat 0 (length r).
Proof.
  induction r as [|e r IH]; [reflexivity|].
  cbn [Mat.zip_with length repeat]. rewrite IH. f_equal. ring.
Qed.

Lemma array_sub_self (d : nat) (a : matrix) :
  Mat.square d a -> array_sub a a = zeros d.
Proof.
  intros [Hlen Hrows]. unfold array_sub, zeros. rewrite <- Hlen at 2.
  clear Hlen. induction Hrows as [|r a Hr Hrows IH]; [reflexivity|].
  cbn [Mat.zip_with length repeat]. rewrite IH, zip_with_minus_self, Hr.
  reflexivity.
Qed.

(** X14.  In exact arithmetic the second check cell, the difference of the
    valuation with the array [1/1.04**k] and the valuation with the number
    [1/1.04] at age 25 and horizon 20, evaluates to the 4-by-4 zero array. *)
Theorem discount_check_is_zero (expm : matrix -> matrix) :
  (forall y, 25 <= y -> is_expm (U y) (P expm y)) ->
  snd (run (discount_check expm)) = Ok (zeros 4).
Proof.
  intros HE.
  assert (HP : forall y, 25 <= y -> Mat.square 4 (P expm y))
    by (intros y Hy; apply (HE y Hy)).
  unfold discount_check, run. unfold bind at 1.
  rewrite inverse_powers_eq. change 21%Z with (20 + 1)%Z.
  pose proof (annuities_powers_eq 25 (1 / 1.04) (P expm) 20 ltac:(lia)) as Heq.
  unfold run in Heq. rewrite Heq. clear Heq.
  change 20%Z with (Z.of_nat 20) at 1 2.
  pose proof (annuities_scalar_direct_sum 25 (1 / 1.04) (P expm) 20) as Hrun.
  unfold run in Hrun. rewrite Hrun. clear Hrun.
  unfold bind. rewrite annuities_scalar.
  change 20%Z with (Z.of_nat 20).
  rewrite <- (scal_1 (Mat.eye _)). change 1 with (powerRZ (1 / 1.04) 0) at 3.
  rewrite fold_update_direct_sum. cbn [snd]. unfold ret. cbn [snd].
  f_equal. apply array_sub_self. now apply direct_sum_square.
Qed.

Lemma discount_check_is_zero_witness :
  (forall y, 25 <= y -> is_expm (U y) (P expm_generator y)) /\
  snd (run (discount_check expm_generator)) = Ok (zeros 4).
Proof.
  assert (HE : forall y, 25 <= y -> is_expm (U y) (P expm_generator y)).
  { intros y Hy. apply is_expm_U_closed. lra. }
  split; [exact HE|]. exact (discount_check_is_zero expm_generator HE).
Defined.

(** ** [annuities] applied to [P] *)

Lemma chain_unit_entry (P : R -> matrix) (x : R) (d k i : nat) :
  (forall y, x <= y -> Mat.square d (P y)) ->
  (forall y, x <= y -> Mat.entry (P y) i i = 1) ->
  (i < d)%nat ->
  Mat.entry (chain Mat.mul P x k) i i = 1.
Proof.
  intros HP H1 Hi. induction k as [|k IH].
  - apply H1. lra.
  - rewrite (entry_chain_S P x d) by assumption.
    rewrite IH, H1 by (apply age_ge; lia). ring.
Qed.

Lemma direct_sum_unit_entry (v : R) (P : R -> matrix) (x : R) (d n i : nat) :
  (forall y, x <= y -> Mat.square d (P y)) ->
  (forall y, x <= y -> Mat.entry (P y) i i = 1) ->
  (i < d)%nat ->
  Mat.entry (direct_sum Mat.mul (powerRZ v) P x n) i i = sum_f_R0 (fun k => v ^ k) n.
Proof.
  intros HP H1 Hi.
  assert (Hd : length (P x) = d) by (apply HP; lra).
  induction n as [|n IH].
  - cbn [direct_sum sum_f_R0]. rewrite Hd.
    rewrite (entry_scal _ d) by (apply square_eye || exact Hi).
    rewrite entry_eye, Nat.eqb_refl by exact Hi. simpl. ring.
  - rewrite (entry_direct_sum_S _ P x d) by assumption.
    rewrite IH, (chain_unit_entry P x d) by assumption.
    cbn [sum_f_R0]. rewrite <- pow_powerRZ. ring.
Qed.

(** X15.  With the transition matrices [P] as callback and a number [v]
    as discount factor, the entry of the result for the absorbing state is
    the annuity-certain [1 + v + ... + v**n]. *)
Theorem annuities_absorbing_state_certain (expm : matrix -> matrix) (x v : R) (n : nat) :
  (forall y, x <= y -> is_expm (U y) (P expm y)) ->
  exists a : matrix,
    snd (run (annuities x (Scalar v) (P expm) (Z.of_nat n))) = Ok a /\
    Mat.entry a 3 3 = sum_f_R0 (fun k => v ^ k) n.
Proof.
  intros HE. rewrite annuities_scalar_direct_sum. cbn [snd].
  eexists. split; [reflexivity|].
  apply (direct_sum_unit_entry v (P expm) x 4).
  - intros y Hy. apply (HE y Hy).
  - intros y Hy. apply (is_expm_U_cell y); [apply (HE y Hy)|lia|lia|].
    apply series_delta.
  - lia.
Qed.

Lemma annuities_absorbing_state_certain_witness :
  (forall y, 25 <= y -> is_expm (U y) (P expm_generator y)) /\
  exists a : matrix,
    snd (run (annuities 25 (Scalar (1 / 1.04)) (P expm_generator) (Z.of_nat 20))) = Ok a /\
    Mat.entry a 3 3 = sum_f_R0 (fun k => (1 / 1.04) ^ k) 20.
Proof.
  assert (HE : forall y, 25 <= y -> is_expm (U y) (P expm_generator y)).
  { intros y Hy. apply is_expm_U_closed. lra. }
  split; [exact HE|].
  exact (annuities_absorbing_state_certain expm_generator 25 (1 / 1.04) 20 HE).
Defined.

(** ** What [annuities] returns, in closed form *)

(** X16.  With a number [v] as discount factor, a horizon [n >= 0] and a
    callback that returns [d]-by-[d] arrays, the valuation returns the sum
    over [k = 0..n] of [v**k] times the entry-by-entry product
    [P(x + k) * ... * P(x + 1) * P(x)], the term of [k = 0] being the
    identity. *)
Theorem annuities_scalar_closed_form (x v : R) (P : R -> matrix) (n d : nat) :
  (forall y, x <= y -> Mat.square d (P y)) ->
  snd (run (annuities x (Scalar v) P (Z.of_nat n)))
  = Ok (direct_sum Mat.mul (powerRZ v) P x n) /\
  Mat.square d (direct_sum Mat.mul (powerRZ v) P x n).
Proof.
  intros HP. split; [|now apply direct_sum_square].
  unfold run. rewrite annuities_scalar. cbn [snd]. f_equal.
  rewrite <- (scal_1 (Mat.eye _)). change 1 with (powerRZ v 0).
  now rewrite fold_update_direct_sum.
Qed.

Lemma annuities_scalar_closed_form_witness :
  (forall y, 25 <= y -> Mat.square 4 (half_move y)) /\
  snd (run (annuities 25 (Scalar (1 / 2)) half_move (Z.of_nat 2)))
  = Ok (direct_sum Mat.mul (powerRZ (1 / 2)) half_move 25 2) /\
  Mat.square 4 (direct_sum Mat.mul (powerRZ (1 / 2)) half_move 25 2).
Proof.
  assert (HP : forall y, 25 <= y -> Mat.square 4 (half_move y)).
  { intros y _. split; [reflexivity|].
    repeat apply Forall_cons; try apply Forall_nil; reflexivity. }
  split; [exact HP|].
  exact (annuities_scalar_closed_form 25 (1 / 2) half_move 2 4 HP).
Defined.

(** X17.  With an array of more than [n] and at least two weights and a
    callback that returns [d]-by-[d] arrays, the valuation returns the same
    sum with the weight [v[k]] in place of [v**k], after evaluating the
    callback at [x, x + 1, ..., x + n]. *)
Theorem annuities_ndarray_closed_form (x : R) (v : vector) (P : R -> matrix) (n d : nat) :
  (forall y, x <= y -> Mat.square d (P y)) ->
  (1 < length v)%nat -> (n < length v)%nat ->
  run (annuities x (Ndarray v) P (Z.of_nat n))
  = (x :: ages x (range 1 (Z.of_nat n + 1)),
     Ok (direct_sum Mat.mul (fun k => nth (Z.to_nat k) v 0) P x n)) /\
  Mat.square d (direct_sum Mat.mul (fun k => nth (Z.to_nat k) v 0) P x n).
Proof.
  intros HP Hlen Hn. split; [|now apply direct_sum_square]. unfold run.
  assert (Hget : forall k, (0 <= k <= Z.of_nat n)%Z ->
            getitem v k = ret (nth (Z.to_nat k) v 0)).
  { intros k Hk. apply getitem_ok; [lia|]. apply nth_error_nth'. lia. }
  rewrite (annuities_ndarray x v (fun k => nth (Z.to_nat k) v 0) P _ []
             Hlen Hget (Hget 0%Z ltac:(lia))).
  now rewrite fold_update_direct_sum.
Qed.

Lemma annuities_ndarray_closed_form_witness :
  (forall y, 25 <= y -> Mat.square 4 (half_move y)) /\
  (1 < length [3; 2; 1])%nat /\ (2 < length [3; 2; 1])%nat /\
  run (annuities 25 (Ndarray [3; 2; 1]) half_move (Z.of_nat 2))
  = (25 :: ages 25 (range 1 (Z.of_nat 2 + 1)),
     Ok (direct_sum Mat.mul (fun k => nth (Z.to_nat k) [3; 2; 1] 0) half_move 25 2)) /\
  Mat.square 4 (direct_sum Mat.mul (fun k => nth (Z.to_nat k) [3; 2; 1] 0) half_move 25 2).
Proof.
  assert (HP : forall y, 25 <= y -> Mat.square 4 (half_move y)).
  { intros y _. split; [reflexivity|].
    repeat apply Forall_cons; try apply Forall_nil; reflexivity. }
  split; [exact HP|]. split; [simpl; lia|]. split; [simpl; lia|].
  apply (annuities_ndarray_closed_form 25 [3; 2; 1] half_move 2 4 HP); simpl; lia.
Defined.

Lemma update_agree (w : Z -> R) (x : R) (P Q : R -> matrix) (d i j : nat)
    (s s' : matrix * matrix) (k : Z) :
  (forall y, x <= y -> Mat.square d (P y)) ->
  (forall y, x <= y -> Mat.square d (Q y)) ->
  (forall y, x <= y -> Mat.entry (P y) i j = Mat.entry (Q y) i j) ->
  (i < d)%nat -> (j < d)%nat -> (0 <= k)%Z ->
  agree_at d i j s s' ->
  agree_at d i j (update w x P s k) (update w x Q s' k).
Proof.
  intros HP HQ Heq Hi Hj Hk (H1 & H2 & H3 & H4 & H5 & H6).
  destruct (update_square w x P d s k HP Hk (conj H1 H2)) as [S1 S2].
  destruct (update_square w x Q d s' k HQ Hk (conj H3 H4)) as [S3 S4].
  assert (E1 : Mat.entry (fst (update w x P s k)) i j
               = Mat.entry (fst (update w x Q s' k)) i j).
  { unfold update. cbn [fst]. unfold Mat.mul.
    rewrite !(entry_zip_with Rmult d)
      by (assumption || apply HP, age_ge, Hk || apply HQ, age_ge, Hk).
    rewrite H5, Heq by (apply age_ge, Hk). reflexivity. }
  unfold agree_at.
  split; [exact S1|]. split; [exact S2|]. split; [exact S3|]. split; [exact S4|].
  split; [exact E1|].
  unfold update in *. cbn [fst snd] in *. unfold Mat.add.
  rewrite !(entry_zip_with Rplus d)
    by (assumption || (apply square_scal; assumption)).
  rewrite !(entry_scal _ d) by assumption.
  now rewrite H6, E1.
Qed.

(** Two loops whose bodies apply the same weights, one with the callback
    [P] and one with [Q], succeed together and keep the states in
    agreement. *)
Lemma for_each_agree (x : R) (P Q : R -> matrix) (d i j : nat)
    (bodyP bodyQ : Z -> matrix * matrix -> comp (matrix * matrix)) (ks : list Z) :
  (forall y, x <= y -> Mat.square d (P y)) ->
  (forall y, x <= y -> Mat.square d (Q y)) ->
  (forall y, x <= y -> Mat.entry (P y) i j = Mat.entry (Q y) i j) ->
  (i < d)%nat -> (j < d)%nat ->
  (forall k, In k ks -> (0 <= k)%Z) ->
  (forall k, In k ks ->
     (exists w, forall s s' t t',
        bodyP k s t = (t ++ [x + IZR k], Ok (update w x P s k)) /\
        bodyQ k s' t' = (t' ++ [x + IZR k], Ok (update w x Q s' k))) \/
     (forall s t, exists t1 e, bodyP k s t = (t1, Raise e))) ->
  forall s s' t t' t1 s1,
    agree_at d i j s s' ->
    for_each ks bodyP s t = (t1, Ok s1) ->
    exists t1' s1',
      for_each ks bodyQ s' t' = (t1', Ok s1') /\ agree_at d i j s1 s1'.
Proof.
  intros HP HQ Heq Hi Hj.
  induction ks as [|k ks IH]; intros Hks Hbody s s' t t' t1 s1 Hs; simpl.
  - unfold ret. intros [= _ <-]. eauto.
  - unfold bind.
    destruct (Hbody k ltac:(now left)) as [[w Hw]|Hraise].
    + destruct (Hw s s' t t') as [EP EQ]. rewrite EP, EQ.
      apply IH.
      * intros; apply Hks; now right.
      * intros; apply Hbody; now right.
      * apply update_agree; try assumption. apply Hks. now left.
    + destruct (Hraise s t) as (t2 & e & E). rewrite E. discriminate.
Qed.

(** The result of a loop, as [annuities] returns it. *)
Lemma annuities_scalar_loop (x v : R) (P : R -> matrix) (n : Z) :
  run (annuities x (Scalar v) P n)
  = match for_each (range 1 (n + 1)) (step_scalar x v P)
                   (P x, Mat.eye (length (P x))) [x] with
    | (t1, Ok s1) => (t1, Ok (snd s1))
    | (t1, Raise e) => (t1, Raise e)
    end.
Proof.
  unfold run, annuities, bind, call. cbn [app].
  destruct (for_each _ _ _ _) as [t1 [[Pk a1]|e1]]; reflexivity.
Qed.

Lemma annuities_ndarray_loop (x w : R) (v : vector) (P : R -> matrix) (n : Z) :
  getitem v 0 = ret w -> (1 < length v)%nat ->
  run (annuities x (Ndarray v) P n)
  = match for_each (range 1 (n + 1)) (step_ndarray x v P)
                   (P x, Mat.scal w (Mat.eye (length (P x)))) [x] with
    | (t1, Ok s1) => (t1, Ok (snd s1))
    | (t1, Raise e) => (t1, Raise e)
    end.
Proof.
  intros Hw Hlen. unfold run, annuities. unfold bind at 1. unfold call. cbn [app].
  unfold bind at 1. rewrite Hw. unfold ret at 1.
  replace (1 <? length v)%nat with true by (symmetry; now apply Nat.ltb_lt).
  unfold bind.
  destruct (for_each _ _ _ _) as [t1 [[Pk a1]|e1]]; reflexivity.
Qed.

(** X18.  Entry [(i, j)] of the result depends on the callback only
    through entry [(i, j)] of its arrays: for two callbacks with [d]-by-[d]
    arrays that agree in that entry at every age from [x] on, and for every
    discount argument and horizon, when the valuation returns with the one
    callback it returns with the other, and the two results agree in that
    entry, whatever the other entries are. *)
Theorem annuities_entry_local (x : R) (v : discount) (P Q : R -> matrix) (n : Z)
    (d i j : nat) (a : matrix) :
  (forall y, x <= y -> Mat.square d (P y)) ->
  (forall y, x <= y -> Mat.square d (Q y)) ->
  (forall y, x <= y -> Mat.entry (P y) i j = Mat.entry (Q y) i j) ->
  (i < d)%nat -> (j < d)%nat ->
  snd (run (annuities x v P n)) = Ok a ->
  exists b : matrix,
    snd (run (annuities x v Q n)) = Ok b /\
    Mat.entry a i j = Mat.entry b i j.
Proof.
  intros HP HQ Heq Hi Hj.
  assert (HdP : length (P x) = d) by (apply HP; lra).
  assert (HdQ : length (Q x) = d) by (apply HQ; lra).
  assert (Hpos : forall k, In k (range 1 (n + 1)) -> (0 <= k)%Z).
  { intros k Hk. apply in_range in Hk. lia. }
  assert (H0 : forall c,
            agree_at d i j (P x, Mat.scal c (Mat.eye d)) (Q x, Mat.scal c (Mat.eye d))).
  { intros c. unfold agree_at. cbn [fst snd].
    split; [apply HP; lra|]. split; [apply square_scal, square_eye|].
    split; [apply HQ; lra|]. split; [apply square_scal, square_eye|].
    split; [apply Heq; lra|reflexivity]. }
  assert (Hloop : forall bodyP bodyQ c,
            (forall k, In k (range 1 (n + 1)) ->
               (exists w, forall s s' t t',
                  bodyP k s t = (t ++ [x + IZR k], Ok (update w x P s k)) /\
                  bodyQ k s' t' = (t' ++ [x + IZR k], Ok (update w x Q s' k))) \/
               (forall s t, exists t1 e, bodyP k s t = (t1, Raise e))) ->
            snd (match for_each (range 1 (n + 1)) bodyP
                                (P x, Mat.scal c (Mat.eye d)) [x] with
                 | (t1, Ok s1) => (t1, Ok (snd s1))
                 | (t1, Raise e) => (t1, Raise e)
                 end) = Ok a ->
            exists b,
              snd (match for_each (range 1 (n + 1)) bodyQ
                                  (Q x, Mat.scal c (Mat.eye d)) [x] with
                   | (t1, Ok s1) => (t1, Ok (snd s1))
                   | (t1, Raise e) => (t1, Raise e)
                   end) = Ok b /\
              Mat.entry a i j = Mat.entry b i j).
  { intros bodyP bodyQ c Hbody.
    destruct (for_each _ bodyP _ _) as [t1 [s1|e1]] eqn:E; [|discriminate].
    cbn [snd]. intros [= <-].
    destruct (for_each_agree x P Q d i j bodyP bodyQ (range 1 (n + 1))
                HP HQ Heq Hi Hj Hpos Hbody _ _ [x] [x] t1 s1 (H0 c) E)
      as (t1' & s1' & EQ & Hag).
    rewrite EQ. cbn [snd]. eexists. split; [reflexivity|]. apply Hag. }
  destruct v as [v|v].
  - rewrite !annuities_scalar_loop, HdP, HdQ.
    rewrite <- (scal_1 (Mat.eye d)).
    apply Hloop. intros k _. left. exists (powerRZ v). intros s s' t t'.
    split; apply step_scalar_ok.
  - destruct (getitem_cases v 0) as [[w Hw]|Hw].
    + destruct (1 <? length v)%nat eqn:Hlen.
      * apply Nat.ltb_lt in Hlen.
        rewrite !(annuities_ndarray_loop x w v) by assumption.
        rewrite HdP, HdQ. apply Hloop. intros k _.
        destruct (getitem_cases v k) as [[wk Hk]|Hk].
        -- left. exists (fun _ => wk). intros s s' t t'.
           split; now apply (step_ndarray_ok x v (fun _ => wk)).
        -- right. intros [Pk' a'] t. unfold step_ndarray, bind, call.
           rewrite Hk. unfold raise. eauto.
      * unfold run, annuities. unfold bind at 1 3. unfold call. cbn [app].
        unfold bind. rewrite Hw. unfold ret at 1 3. rewrite Hlen.
        unfold ret. cbn [snd]. rewrite HdP, HdQ. intros [= <-]. eauto.
    + unfold run, annuities. unfold bind at 1. unfold call. cbn [app].
      unfold bind. rewrite Hw. discriminate.
Qed.

Lemma annuities_entry_local_witness :
  (forall y, 25 <= y -> Mat.square 4 (half_move y)) /\
  (forall y, 25 <= y -> Mat.square 4 (Mat.eye 4)) /\
  (forall y, 25 <= y -> Mat.entry (half_move y) 1 1 = Mat.entry (Mat.eye 4) 1 1) /\
  (1 < 4)%nat /\ (1 < 4)%nat /\
  snd (run (annuities 25 (Ndarray [3; 2; 1]) half_move 2))
  = Ok (direct_sum Mat.mul (fun k => nth (Z.to_nat k) [3; 2; 1] 0) half_move 25 2) /\
  exists b : matrix,
    snd (run (annuities 25 (Ndarray [3; 2; 1]) (fun _ => Mat.eye 4) 2)) = Ok b /\
    Mat.entry (direct_sum Mat.mul (fun k => nth (Z.to_nat k) [3; 2; 1] 0) half_move 25 2) 1 1
    = Mat.entry b 1 1.
Proof.
  assert (HP : forall y, 25 <= y -> Mat.square 4 (half_move y)).
  { intros y _. split; [reflexivity|].
    repeat apply Forall_cons; try apply Forall_nil; reflexivity. }
  assert (HQ : forall y : R, 25 <= y -> Mat.square 4 (Mat.eye 4)).
  { intros y _. apply square_eye. }
  assert (Heq : forall y, 25 <= y ->
            Mat.entry (half_move y) 1 1 = Mat.entry (Mat.eye 4) 1 1).
  { intros y _. reflexivity. }
  assert (Hrun : snd (run (annuities 25 (Ndarray [3; 2; 1]) half_move 2))
                 = Ok (direct_sum Mat.mul (fun k => nth (Z.to_nat k) [3; 2; 1] 0) half_move 25 2)).
  { change 2%Z with (Z.of_nat 2).
    rewrite annuities_ndarray_direct_sum by (simpl; lia). reflexivity. }
  split; [exact HP|]. split; [exact HQ|]. split; [exact Heq|].
  split; [lia|]. split; [lia|]. split; [exact Hrun|].
  apply (annuities_entry_local 25 (Ndarray [3; 2; 1]) half_move (fun _ => Mat.eye 4) 2
           4 1 1 _ HP HQ Heq); [lia|lia|exact Hrun].
Defined.
